(** * Resource locking of the pentf test runner (locking.js)

    A shallow embedding of [annotateTaskResources], [init], [shutdown],
    [acquire], [acquireEventually], [release] and [listConflicts].

    - [state.locks], a JS [Set] of strings, is a [gset string]; the code
      only observes it through [has], [add], [delete], [size] and a sorted
      listing, so insertion order is not needed.
    - The functions are [async]; an invocation is a state transformer over
      a [World] that holds the runner state and the chronological trace of
      everything the invocation does to its collaborators
      ([external_locking], [output], [wait]).  A rejected promise / failed
      [assert] is [Throw], a fulfilled one is [Ret].
    - [external_locking] is not part of the modelled file: its answers are
      given by an arbitrary function of the history, over which every
      theorem quantifies.  The same holds for what other tasks do to
      [state.locks] while [acquireEventually] sleeps.  A single call of
      [acquire] or [release] is modelled without other tasks running at its
      [await] on the external client.
    - Strings are sequences of 8-bit characters; the resource-name pattern
      only accepts ASCII, so wider code units behave like any rejected
      character.  *)

From Stdlib Require Import ZArith Lia Ascii String.
From stdpp Require Import gmap strings list pretty.

Local Open Scope Z_scope.
Local Open Scope string_scope.
Local Open Scope list_scope.

(** ** Data *)

Record Config := {
  no_locking : bool;
  no_external_locking : bool;
  locking_verbose : bool;
  log_file : option string;
}.

Record Task := {
  id : string;
  resources : list string;
}.

(** [@typedef {{resource: string, expireIn: number, client?: string}} Lock] *)
Record Lock := {
  resource : string;
  expireIn : Z;
  client : option string;
}.

(** What [await external_locking.externalAcquire/externalRelease] yields:
    [true], a [Lock] describing the holder, or a thrown error (of which the
    code only reads [e.stack]). *)
Inductive ExtResponse :=
| ExtTrue
| ExtLock (l : Lock)
| ExtError (stack : string).

(** A template literal is kept as the list of its pieces. *)
Inductive Piece :=
| PStr (s : string)
| PNum (n : Z)
| PUndefined
| PJson (s : string)              (* JSON.stringify(s) *)
| PSortedJoin (s : gset string).  (* Array.from(s).sort().join(',') *)

Definition Msg := list Piece.

Inductive Event :=
| ExtInit
| ExtShutdown
| ExtAcquire (rs : list string) (lease : Z)
| ExtRelease (rs : list string)
| Wait (ms : Z)
| LogVerbose (m : Msg)
| Log (m : Msg)
| Color (c : string) (m : Msg).

(** [state.locks] together with the stray [length] property that
    [shutdown] writes onto the Set object, and the trace. *)
Record World := {
  locks : gset string;
  locks_length : option Z;
  trace : list Event;
}.

Inductive Error :=
| AssertionError (m : Msg).

Inductive Outcome (A : Type) :=
| Ret (a : A)
| Throw (e : Error).
Arguments Ret {A} a.
Arguments Throw {A} e.

(** The value a JS function hands back where the code mixes [return true]
    and a bare [return]. *)
Inductive JsValue :=
| JsTrue
| JsUndefined.

(** ** A state-and-exception monad for the function bodies *)

Module Js.

Definition M (A : Type) : Type := World -> Outcome A * World.

Definition ret {A} (a : A) : M A := fun w => (Ret a, w).

Definition bind {A B} (m : M A) (k : A -> M B) : M B :=
  fun w =>
    match m w with
    | (Ret a, w') => k a w'
    | (Throw e, w') => (Throw e, w')
    end.

Definition emit (e : Event) : M unit :=
  fun w => (Ret tt, {| locks := locks w; locks_length := locks_length w;
                       trace := trace w ++ [e] |}).

Definition get_locks : M (gset string) := fun w => (Ret (locks w), w).

Definition set_locks (s : gset string) : M unit :=
  fun w => (Ret tt, {| locks := s; locks_length := locks_length w;
                       trace := trace w |}).

Definition get_trace : M (list Event) := fun w => (Ret (trace w), w).

(** [assert(cond, message)] *)
Definition assert (cond : bool) (m : Msg) : M unit :=
  fun w => if cond then (Ret tt, w) else (Throw (AssertionError m), w).

Definition when (c : bool) (m : M unit) : M unit :=
  if c then m else ret tt.

(** [for (const x of l) body(x)], leaving the loop at the first throw. *)
Fixpoint for_of {A} (l : list A) (body : A -> M unit) : M unit :=
  match l with
  | [] => ret tt
  | x :: l' => bind (body x) (fun _ => for_of l' body)
  end.

End Js.

#[global] Instance js_ret : MRet Js.M := @Js.ret.
#[global] Instance js_bind : MBind Js.M := fun A B k m => Js.bind m k.

(** ** Strings and truthiness *)

(** [l.join(sep)] *)
Fixpoint join (sep : string) (l : list string) : string :=
  match l with
  | [] => ""
  | [x] => x
  | x :: l' => x +:+ sep +:+ join sep l'
  end.

(** A configured string is truthy unless it is empty. *)
Definition truthy (o : option string) : bool :=
  match o with
  | Some s => negb (String.eqb s "")
  | None => false
  end.

(** [config.locking_verbose || config.log_file] *)
Definition verbose (config : Config) : bool :=
  locking_verbose config || truthy (log_file config).

(** ** The resource-name pattern [/^[-A-Za-z_0-9]+$/] *)

Inductive ClassItem :=
| CChar (c : ascii)
| CRange (lo hi : ascii).

Definition class_item_matches (c : ascii) (i : ClassItem) : bool :=
  match i with
  | CChar d => Ascii.eqb c d
  | CRange lo hi =>
      (nat_of_ascii lo <=? nat_of_ascii c)%nat && (nat_of_ascii c <=? nat_of_ascii hi)%nat
  end.

Definition class_matches (cls : list ClassItem) (c : ascii) : bool :=
  existsb (class_item_matches c) cls.

(** [-A-Za-z_0-9] *)
Definition resource_name_class : list ClassItem :=
  [CChar "-"; CRange "A" "Z"; CRange "a" "z"; CChar "_"; CRange "0" "9"]%char.

(** Longest prefix of [s] made of class characters: returns what is left. *)
Fixpoint skip_class (cls : list ClassItem) (s : string) : string :=
  match s with
  | EmptyString => EmptyString
  | String c s' => if class_matches cls c then skip_class cls s' else s
  end.

(** [/^[cls]+$/.test(s)]: at least one class character from the start, and
    the end of input right after the run (no [m] flag, so [$] is the end of
    the string only). *)
Definition test_anchored_plus (cls : list ClassItem) (s : string) : bool :=
  match s with
  | EmptyString => false
  | String c s' =>
      class_matches cls c && String.eqb (skip_class cls s') EmptyString
  end.

Definition resource_name_test (r : string) : bool :=
  test_anchored_plus resource_name_class r.

(** The syntax as the documentation words it: one or more characters, each
    a letter, a digit, an underscore or a hyphen. *)
Definition name_char (c : ascii) : Prop :=
  let n := nat_of_ascii c in
  (65 <= n <= 90)%nat \/ (97 <= n <= 122)%nat \/ (48 <= n <= 57)%nat
  \/ n = 95%nat \/ n = 45%nat.

Definition matches_syntax (r : string) : Prop :=
  r <> EmptyString /\ Forall name_char (list_ascii_of_string r).

(** ** annotateTaskResources *)

Definition invalid_name_msg (task : Task) (r : string) : Msg :=
  [PStr "Invalid resource name in task "; PStr (id task); PStr ": "; PJson r].

Definition annotateTaskResources (config : Config) (task : Task) : Js.M unit :=
  if no_locking config then mret tt
  else
    Js.for_of (resources task) (fun r =>
      Js.assert (resource_name_test r) (invalid_name_msg task r)).

(** ** State accessors used by the bodies below *)

(** [locks.add(r)] and [locks.delete(r)] on the Set that [state.locks] and
    the local [locks] both name. *)
Definition locks_add (r : string) : Js.M unit :=
  fun w => Js.set_locks ({[r]} ∪ locks w) w.

Definition locks_delete (r : string) : Js.M unit :=
  fun w => Js.set_locks (locks w ∖ {[r]}) w.

(** [locks.has(r)] *)
Definition has (s : gset string) (r : string) : bool := bool_decide (r ∈ s).

(** [state.locks.length = 0]: on a Set this only creates a property. *)
Definition set_locks_length (n : Z) : Js.M unit :=
  fun w => (Ret tt, {| locks := locks w; locks_length := Some n;
                       trace := trace w |}).

Definition client_piece (l : Lock) : Piece :=
  match client l with
  | Some c => PStr c
  | None => PUndefined
  end.

(** ** The messages, one definition per template literal of the file *)

Definition still_locked_msg (locks : gset string) : Msg :=
  [PStr "Still got some locks on shutdown: "; PSortedJoin locks].

Definition failed_msg (task : Task) (failed : list string) : Msg :=
  [PStr "[locking] "; PStr (id task); PStr ": Failed to acquire ";
   PStr (join "," failed)].

Definition ex_failed_msg (task : Task) (acquireRes : Lock) : Msg :=
  [PStr "[exlocking] "; PStr (id task); PStr ": Failed to acquire ";
   PStr (resource acquireRes); PStr ", held by "; client_piece acquireRes;
   PStr ", expires in "; PNum (expireIn acquireRes); PStr " ms"].

Definition lockserver_msg (task : Task) (stack : string) : Msg :=
  [PStr "[exlocking] Failed to acquire locks for "; PStr (id task);
   PStr ". Is the lockserver up and running?

";
   PStr stack].

Definition acquired_msg (task : Task) : Msg :=
  [PStr "[locking] "; PStr (id task); PStr ": Acquired ";
   PStr (join "," (resources task))].

Definition trying_msg (task : Task) : Msg :=
  [PStr "[locking] "; PStr (id task); PStr ": Trying to eventually acquire ";
   PStr (join "," (resources task))].

Definition ex_release_failed_msg (task : Task) (response : Lock) : Msg :=
  [PStr "[exlocking] "; PStr (id task); PStr ": Failed to release ";
   PStr (resource response); PStr ", held by "; client_piece response;
   PStr " expires in "; PNum (expireIn response); PStr " ms"].

Definition ex_release_error_msg (task : Task) (stack : string) : Msg :=
  [PStr "[exlocking] Failed to release for "; PStr (id task); PStr ": ";
   PStr stack].

Definition not_held_msg (task : Task) (r : string) (locks : gset string) : Msg :=
  [PStr "Trying to release "; PStr r; PStr " for "; PStr (id task);
   PStr ", but not in current locks "; PSortedJoin locks].

Definition released_msg (task : Task) : Msg :=
  [PStr "[locking] "; PStr (id task); PStr ": Released ";
   PStr (join "," (resources task))].

(** ** init and shutdown *)

(** [state.locks = new Set()] replaces the Set object, stray property
    included. *)
Definition init (config : Config) : Js.M unit :=
  fun w => Js.emit ExtInit
             {| locks := ∅; locks_length := None; trace := trace w |}.

Definition shutdown (config : Config) : Js.M unit :=
  Js.emit ExtShutdown ;;
  set_locks_length 0 ;;
  locks ← Js.get_locks;
  Js.assert (Z.eqb (Z.of_nat (size locks)) 0) (still_locked_msg locks).

(** ** acquire, acquireEventually, release *)

Section Collaborators.

(** Answers of the lock server, as a function of what this invocation
    chain has done so far and of the arguments of the call. *)
Variable externalAcquire : list Event -> list string -> Z -> ExtResponse.
Variable externalRelease : list Event -> list string -> ExtResponse.

(** What the other tasks of the process leave in [state.locks] while this
    one sleeps in [wait]. *)
Variable other_tasks : list Event -> gset string -> gset string.

Definition await_externalAcquire (rs : list string) (lease : Z)
  : Js.M ExtResponse :=
  tr ← Js.get_trace;
  Js.emit (ExtAcquire rs lease) ;;
  mret (externalAcquire tr rs lease).

Definition await_externalRelease (rs : list string) : Js.M ExtResponse :=
  tr ← Js.get_trace;
  Js.emit (ExtRelease rs) ;;
  mret (externalRelease tr rs).

(** [await wait(ms)] *)
Definition wait (ms : Z) : Js.M unit :=
  fun w => (Ret tt, {| locks := other_tasks (trace w) (locks w);
                       locks_length := locks_length w;
                       trace := trace w ++ [Wait ms] |}).

(** The tail of [acquire]: the insertion loop, the log line, [return true]. *)
Definition acquire_add (config : Config) (task : Task) : Js.M bool :=
  Js.for_of (resources task) locks_add ;;
  Js.when (verbose config)
    (Js.emit (LogVerbose (acquired_msg task))) ;;
  mret true.

(** [assert(task)] and [assert(locks)] hold for every [Task] and for every
    state that [init] has set up, which is all that [World] contains. *)
Definition acquire (config : Config) (task : Task) : Js.M bool :=
  if no_locking config then mret true
  else
    match resources task with
    | [] => mret true
    | _ :: _ =>
        locks ← Js.get_locks;
        if existsb (has locks) (resources task) then
          Js.when (verbose config)
            (let failed := List.filter (has locks) (resources task) in
             Js.emit (LogVerbose (failed_msg task failed))) ;;
          mret false
        else if negb (no_external_locking config) then
          acquireRes ← await_externalAcquire (resources task) 40000;
          match acquireRes with
          | ExtTrue => acquire_add config task
          | ExtLock l =>
              Js.when (verbose config)
                (Js.emit (LogVerbose (ex_failed_msg task l))) ;;
              mret false
          | ExtError stack =>
              Js.emit (Color "red" (lockserver_msg task stack)) ;;
              mret false
          end
        else acquire_add config task
    end.

(** The [while] loop of [acquireEventually]; [None] when [fuel]
    iterations were not enough to leave it. *)
Fixpoint acquireEventually_loop (fuel : nat) (config : Config) (task : Task)
    (waitTime : Z) (w : World) : option (Outcome bool * World) :=
  match fuel with
  | O => None
  | S fuel' =>
      match acquire config task w with
      | (Ret true, w1) => Some (Ret true, w1)
      | (Ret false, w1) =>
          match wait waitTime w1 with
          | (Ret _, w2) =>
              acquireEventually_loop fuel' config task
                (Z.min 10000 (waitTime * 2)) w2
          | (Throw e, w2) => Some (Throw e, w2)
          end
      | (Throw e, w1) => Some (Throw e, w1)
      end
  end.

Definition acquireEventually (fuel : nat) (config : Config) (task : Task)
    (w : World) : option (Outcome bool * World) :=
  if no_locking config then Some (Ret true, w)
  else
    match Js.when (verbose config)
            (Js.emit (LogVerbose (trying_msg task))) w with
    | (Ret _, w0) => acquireEventually_loop fuel config task 50 w0
    | (Throw e, w0) => Some (Throw e, w0)
    end.

(** One round of the removal loop of [release]. *)
Definition release_one (task : Task) (r : string) : Js.M unit :=
  locks ← Js.get_locks;
  Js.assert (has locks r) (not_held_msg task r locks) ;;
  locks_delete r.

Definition release (config : Config) (task : Task) : Js.M JsValue :=
  if no_locking config then mret JsTrue
  else
    match resources task with
    | [] => mret JsUndefined
    | _ :: _ =>
        Js.when (negb (no_external_locking config))
          (response ← await_externalRelease (resources task);
           match response with
           | ExtTrue => mret tt
           | ExtLock l =>
               Js.when (verbose config)
                 (Js.emit (LogVerbose (ex_release_failed_msg task l)))
           | ExtError stack =>
               Js.emit (Log (ex_release_error_msg task stack))
           end) ;;
        Js.for_of (resources task) (release_one task) ;;
        Js.when (verbose config)
          (Js.emit (LogVerbose (released_msg task))) ;;
        mret JsUndefined
    end.

End Collaborators.

(** ** listConflicts *)

(** [tasksByResource] is a JS [Map]: keys in insertion order, each bound to
    an array that [push] extends in place. *)
Definition ResourceMap := list (string * list Task).

(** The body of the inner loop: [get], create-and-[set] when absent, [push]. *)
Fixpoint push_task (r : string) (t : Task) (m : ResourceMap) : ResourceMap :=
  match m with
  | [] => [(r, [t])]
  | (k, ts) :: m' =>
      if String.eqb k r then (k, ts ++ [t]) :: m'
      else (k, ts) :: push_task r t m'
  end.

Definition tasksByResource (tasks : list Task) : ResourceMap :=
  fold_left (fun m t => fold_left (fun m r => push_task r t m) (resources t) m)
    tasks [].

Definition conflict_msg (resource : string) (tasks : list Task) : Msg :=
  [PStr resource; PStr ": "; PStr (join " " (map id tasks))].

(** The reporting loop, threading [anyConflicts]. *)
Fixpoint report_conflicts (m : ResourceMap) (anyConflicts : bool) : Js.M bool :=
  match m with
  | [] => mret anyConflicts
  | (resource, tasks) :: m' =>
      if (length tasks =? 1)%nat then report_conflicts m' anyConflicts
      else
        Js.emit (Log (conflict_msg resource tasks)) ;;
        report_conflicts m' true
  end.

Definition listConflicts (config : Config) (tasks : list Task) : Js.M unit :=
  anyConflicts ← report_conflicts (tasksByResource tasks) false;
  Js.when (negb anyConflicts)
    (Js.emit (Log [PStr "No resource conflicts found"])).

(** ** Vocabulary of the statements *)

Definition throws {A} (r : Outcome A * World) : Prop :=
  exists e, fst r = Throw e.

Definition returns {A} (r : Outcome A * World) : Prop :=
  exists a, fst r = Ret a.

(** The calls made to [external_locking], in order. *)
Definition is_ext (e : Event) : bool :=
  match e with
  | ExtInit | ExtShutdown | ExtAcquire _ _ | ExtRelease _ => true
  | Wait _ | LogVerbose _ | Log _ | Color _ _ => false
  end.

Definition ext_calls (tr : list Event) : list Event := List.filter is_ext tr.

(** The durations passed to [wait], in order. *)
Definition waits (tr : list Event) : list Z :=
  omap (fun e => match e with Wait ms => Some ms | _ => None end) tr.

(** The log line emitted under a condition. *)
Definition log_if (c : bool) (e : Event) : list Event :=
  if c then [e] else [].

(** What [release] logs about the answer of [externalRelease]. *)
Definition ext_release_log (config : Config) (task : Task) (response : ExtResponse)
  : list Event :=
  match response with
  | ExtTrue => []
  | ExtLock l => log_if (verbose config) (LogVerbose (ex_release_failed_msg task l))
  | ExtError stack => [Log (ex_release_error_msg task stack)]
  end.

(** The state in which the removal loop of [release] starts. *)
Definition after_external_release
    (externalRelease : list Event -> list string -> ExtResponse)
    (config : Config) (task : Task) (w : World) : World :=
  if no_external_locking config then w
  else {| locks := locks w; locks_length := locks_length w;
          trace := trace w ++ ExtRelease (resources task)
                     :: ext_release_log config task
                          (externalRelease (trace w) (resources task)) |}.

(** [m.get(r)] on a [ResourceMap]. *)
Fixpoint map_get (m : ResourceMap) (r : string) : option (list Task) :=
  match m with
  | [] => None
  | (k, ts) :: m' => if String.eqb k r then Some ts else map_get m' r
  end.

(** The (resource, task) pairs in the order in which the two nested loops
    of [listConflicts] visit them. *)
Definition declarations (tasks : list Task) : list (string * Task) :=
  flat_map (fun t => map (fun r => (r, t)) (resources t)) tasks.

(** One visit: the body of the inner loop. *)
Definition push_pair (m : ResourceMap) (d : string * Task) : ResourceMap :=
  push_task (fst d) (snd d) m.

(** The tasks of the visits that concern resource [r]. *)
Definition occurrences (r : string) (ds : list (string * Task)) : list Task :=
  map snd (List.filter (fun d => String.eqb (fst d) r) ds).

(** The tasks of a batch that declare resource [r]. *)
Definition claiming (r : string) (tasks : list Task) : list Task :=
  List.filter (fun t => bool_decide (r ∈ resources t)) tasks.

(** The entries of the map that [listConflicts] reports. *)
Definition is_conflict (e : string * list Task) : bool :=
  negb (length (snd e) =? 1)%nat.

Definition conflicts (tasks : list Task) : ResourceMap :=
  List.filter is_conflict (tasksByResource tasks).

Definition conflict_lines (cs : ResourceMap) : list Event :=
  map (fun e => Log (conflict_msg (fst e) (snd e))) cs.

(** What the runner may do between two calls: lock or unlock for a task. *)
Inductive Op :=
| OpAcquire (t : Task)
| OpRelease (t : Task).

Section Runs.

Variable externalAcquire : list Event -> list string -> Z -> ExtResponse.
Variable externalRelease : list Event -> list string -> ExtResponse.
Variable other_tasks : list Event -> gset string -> gset string.

Definition run_op (config : Config) (w : World) (o : Op) : World :=
  match o with
  | OpAcquire t => snd (acquire externalAcquire config t w)
  | OpRelease t => snd (release externalRelease config t w)
  end.

Definition run_ops (config : Config) (ops : list Op) (w : World) : World :=
  fold_left (run_op config) ops w.

(** [waitTime] when the loop of [acquireEventually] is entered for the
    [k]-th time, counting from 0. *)
Fixpoint waitTime_at (k : nat) : Z :=
  match k with
  | O => 50
  | S k' => Z.min 10000 (waitTime_at k' * 2)
  end.

(** The state in which [acquireEventually] evaluates the loop condition
    for the [k]-th time (from 0), provided the earlier evaluations gave
    false: [w0] is the state in which the loop is entered. *)
Fixpoint attempt_world (config : Config) (task : Task) (w0 : World) (k : nat)
  : World :=
  match k with
  | O => w0
  | S k' =>
      snd (wait other_tasks (waitTime_at k')
             (snd (acquire externalAcquire config task
                     (attempt_world config task w0 k'))))
  end.

(** The value of that [k]-th evaluation of [await acquire(...)]. *)
Definition attempt (config : Config) (task : Task) (w0 : World) (k : nat)
  : Outcome bool :=
  fst (acquire externalAcquire config task (attempt_world config task w0 k)).

(** The state in which [acquireEventually] enters its loop. *)
Definition loop_entry (config : Config) (task : Task) (w : World) : World :=
  {| locks := locks w; locks_length := locks_length w;
     trace := trace w ++ log_if (verbose config) (LogVerbose (trying_msg task)) |}.

End Runs.

(** An operation that unlocks resource [r]. *)
Definition releases (r : string) (o : Op) : Prop :=
  match o with
  | OpAcquire _ => False
  | OpRelease t => r ∈ resources t
  end.

(** ** Sample inputs *)

Definition locking_on : Config :=
  {| no_locking := false; no_external_locking := false;
     locking_verbose := false; log_file := None |}.

Definition local_only : Config :=
  {| no_locking := false; no_external_locking := true;
     locking_verbose := false; log_file := None |}.

Definition locking_off : Config :=
  {| no_locking := true; no_external_locking := false;
     locking_verbose := true; log_file := None |}.

Definition fresh : World :=
  {| locks := ∅; locks_length := None; trace := [] |}.

Definition holding (rs : list string) : World :=
  {| locks := list_to_set rs; locks_length := None; trace := [] |}.

Definition task_A : Task := {| id := "A"; resources := ["r1"] |}.
Definition task_B : Task := {| id := "B"; resources := ["r1"] |}.
Definition task_C : Task := {| id := "C"; resources := ["r2"] |}.
Definition task_ab : Task := {| id := "T"; resources := ["a"; "b"] |}.
Definition task_aab : Task := {| id := "T"; resources := ["a"; "a"; "b"] |}.
Definition task_twice : Task := {| id := "A"; resources := ["r1"; "r1"] |}.
Definition task_none : Task := {| id := "N"; resources := [] |}.

Definition grant (_ : list Event) (_ : list string) (_ : Z) : ExtResponse :=
  ExtTrue.
Definition release_ok (_ : list Event) (_ : list string) : ExtResponse :=
  ExtTrue.
Definition release_unreachable (_ : list Event) (_ : list string) : ExtResponse :=
  ExtError "Error: connect ECONNREFUSED".
Definition release_conflict (_ : list Event) (_ : list string) : ExtResponse :=
  ExtLock {| resource := "a"; expireIn := 1000; client := Some "other" |}.
Definition idle (_ : list Event) (s : gset string) : gset string := s.
Definition unlock_all (_ : list Event) (_ : gset string) : gset string := ∅.

(** The other tasks give everything back during the sleep that follows
    [n] earlier ones. *)
Definition unlock_after (n : nat) (tr : list Event) (s : gset string)
  : gset string :=
  if (n <=? length (waits tr))%nat then ∅ else s.

(** The set a resource list denotes. *)
Definition names (rs : list string) : gset string := list_to_set rs.

(** Does the character occur in the string? *)
Fixpoint occurs (c : ascii) (s : string) : bool :=
  match s with
  | EmptyString => false
  | String d s' => Ascii.eqb c d || occurs c s'
  end.

(** ** loadSuite (the node launcher)

    [loadSuite(fileName, suiteName, builder)] hands [builder] the functions
    [test] and [describe] (each with [.only] and [.skip]) and collects the
    test cases they register.  A builder is represented by the calls it
    makes, in order: a [Script].  Test cases and option objects are JS
    objects, kept as finite maps from property names to values. *)

Module Suite.

Inductive JsVal :=
| VUndefined
| VString (s : string)
| VSkipFn                 (* the closure [skipFn = () => true] *)
| VOpaque (tag : nat).    (* any other value: a function, a flag, an array *)

(** Which of [f], [f.only], [f.skip] is called. *)
Inductive Kind := Plain | Only | Skip.

Inductive Script :=
| Done
| CallTest (k : Kind) (description : string) (run : JsVal)
    (options : gmap string JsVal) (rest : Script)
| CallDescribe (k : Kind) (description : string) (callback : Script)
    (rest : Script).

(** The local variables of [loadSuite]. *)
Record State := {
  tests : list (gmap string JsVal);
  only : list (gmap string JsVal);
  onlyInScope : bool;
  skipInScope : bool;
  groups : list string;
  i : nat;
}.

(** [options.skip]: [undefined] when the property is missing. *)
Definition get (o : gmap string JsVal) (key : string) : JsVal :=
  default VUndefined (o !! key).

(** The template literal of the name, with the value of [i] before [i++]. *)
Definition case_name (st : State) : string :=
  join ">" (groups st) +:+ "_" +:+ pretty (i st).

(** The object literal [{description, name, run, skip, path: fileName,
    ...options}]: the properties of [options] are copied last and win. *)
Definition make_case (fileName : string) (st : State) (description : string)
    (run skip : JsVal) (options : gmap string JsVal) : gmap string JsVal :=
  options ∪
  <["description" := VString description]>
    (<["name" := VString (case_name st)]>
       (<["run" := run]>
          (<["skip" := skip]>
             (<["path" := VString fileName]> ∅)))).

(** [test], [test.only] and [test.skip]. *)
Definition call_test (fileName : string) (k : Kind) (description : string)
    (run : JsVal) (options : gmap string JsVal) (st : State) : State :=
  let skip :=
    match k with
    | Skip => VSkipFn
    | Plain | Only => if skipInScope st then VSkipFn else get options "skip"
    end in
  let into_only :=
    match k with
    | Only => true
    | Plain | Skip => onlyInScope st
    end in
  let c := make_case fileName st description run skip options in
  {| tests := if into_only then tests st else tests st ++ [c];
     only := if into_only then only st ++ [c] else only st;
     onlyInScope := onlyInScope st;
     skipInScope := skipInScope st;
     groups := groups st;
     i := S (i st) |}.

(** What [describe], [describe.only], [describe.skip] do before calling
    [callback] ... *)
Definition enter (k : Kind) (description : string) (st : State) : State :=
  {| tests := tests st; only := only st;
     onlyInScope := match k with Only => true | _ => onlyInScope st end;
     skipInScope := match k with Skip => true | _ => skipInScope st end;
     groups := groups st ++ [description];
     i := i st |}.

(** ... and after it: the flag is set to false, [groups.pop()]. *)
Definition leave (k : Kind) (st : State) : State :=
  {| tests := tests st; only := only st;
     onlyInScope := match k with Only => false | _ => onlyInScope st end;
     skipInScope := match k with Skip => false | _ => skipInScope st end;
     groups := removelast (groups st);
     i := i st |}.

Fixpoint exec (fileName : string) (b : Script) (st : State) : State :=
  match b with
  | Done => st
  | CallTest k description run options rest =>
      exec fileName rest (call_test fileName k description run options st)
  | CallDescribe k description callback rest =>
      exec fileName rest
        (leave k (exec fileName callback (enter k description st)))
  end.

Definition start (suiteName : string) : State :=
  {| tests := []; only := []; onlyInScope := false; skipInScope := false;
     groups := [suiteName]; i := 0 |}.

Definition loadSuite (fileName suiteName : string) (builder : Script)
  : list (gmap string JsVal) :=
  let st := exec fileName builder (start suiteName) in
  if (0 <? length (only st))%nat then only st else tests st.

(** *** Vocabulary *)

(** Number of [test], [test.only], [test.skip] calls of a script. *)
Fixpoint count_tests (b : Script) : nat :=
  match b with
  | Done => 0
  | CallTest _ _ _ _ rest => S (count_tests rest)
  | CallDescribe _ _ callback rest => count_tests callback + count_tests rest
  end.

(** A test call together with the descriptions of the suite and of the
    [describe] blocks around it. *)
Record TestCall := {
  call_path : list string;
  call_kind : Kind;
  call_description : string;
  call_run : JsVal;
  call_options : gmap string JsVal;
}.

(** The test calls of a script in the order in which they are made. *)
Fixpoint test_calls (path : list string) (b : Script) : list TestCall :=
  match b with
  | Done => []
  | CallTest k description run options rest =>
      {| call_path := path; call_kind := k; call_description := description;
         call_run := run; call_options := options |}
      :: test_calls path rest
  | CallDescribe _ description callback rest =>
      test_calls (path ++ [description]) callback ++ test_calls path rest
  end.

(** The [test.only] calls among [calls], each with its position in the
    sequence of all test calls, the first position being [n]. *)
Fixpoint only_calls (n : nat) (calls : list TestCall) : list (nat * TestCall) :=
  match calls with
  | [] => []
  | call :: rest =>
      match call_kind call with
      | Only => [(n, call)]
      | Plain | Skip => []
      end ++ only_calls (S n) rest
  end.

(** No [test.only] and no [describe.only] anywhere. *)
Fixpoint no_only (b : Script) : Prop :=
  match b with
  | Done => True
  | CallTest k _ _ _ rest => k <> Only /\ no_only rest
  | CallDescribe k _ callback rest =>
      k <> Only /\ no_only callback /\ no_only rest
  end.

(** No option object carries a property [name]. *)
Fixpoint no_name_option (b : Script) : Prop :=
  match b with
  | Done => True
  | CallTest _ _ _ options rest =>
      options !! "name" = None /\ no_name_option rest
  | CallDescribe _ _ callback rest =>
      no_name_option callback /\ no_name_option rest
  end.

Definition same_kind (a b : Kind) : bool :=
  match a, b with
  | Plain, Plain | Only, Only | Skip, Skip => true
  | _, _ => false
  end.

(** Is there a [describe] call of kind [k] anywhere in the script? *)
Fixpoint has_describe (k : Kind) (b : Script) : bool :=
  match b with
  | Done => false
  | CallTest _ _ _ _ rest => has_describe k rest
  | CallDescribe k' _ callback rest =>
      same_kind k k' || has_describe k callback || has_describe k rest
  end.

(** What a registered case owes to the call that made it, [n] being the
    number of test calls made before: every property of the option object,
    and the computed properties that the options do not override. *)
Definition registered (fileName : string) (n : nat) (call : TestCall)
    (c : gmap string JsVal) : Prop :=
  call_options call ⊆ c /\
  (call_options call !! "name" = None ->
   c !! "name"
   = Some (VString (join ">" (call_path call) +:+ "_" +:+ pretty n))) /\
  (call_options call !! "description" = None ->
   c !! "description" = Some (VString (call_description call))) /\
  (call_options call !! "run" = None -> c !! "run" = Some (call_run call)) /\
  (call_options call !! "path" = None ->
   c !! "path" = Some (VString fileName)) /\
  (call_options call !! "skip" = None -> call_kind call = Skip ->
   c !! "skip" = Some VSkipFn).

(** The case that a test call of kind [k] makes in state [st]. *)
Definition new_case (fileName : string) (k : Kind) (d : string) (r : JsVal)
    (o : gmap string JsVal) (st : State) : gmap string JsVal :=
  make_case fileName st d r
    match k with
    | Skip => VSkipFn
    | Plain | Only => if skipInScope st then VSkipFn else get o "skip"
    end o.

(** The case's [name] is some prefix, an underscore and the number [n]. *)
Definition indexed (c : gmap string JsVal) (n : nat) : Prop :=
  exists g, c !! "name" = Some (VString (g +:+ "_" +:+ pretty n)).

(** Names given so far: pairwise distinct within each array, each ending
    in a number below the counter. *)
Definition names_fresh (st : State) : Prop :=
  NoDup (map (fun c => c !! "name") (tests st)) /\
  NoDup (map (fun c => c !! "name") (only st)) /\
  Forall (fun c => exists n, (n < i st)%nat /\ indexed c n)
    (tests st ++ only st).

Definition sample_suite : Script :=
  CallTest Plain "first" (VOpaque 1) ∅
    (CallDescribe Plain "group"
       (CallTest Skip "second" (VOpaque 2) ∅ Done)
       (CallTest Plain "third" (VOpaque 3) ∅ Done)).

Definition sample_only : Script :=
  CallTest Plain "first" (VOpaque 1) ∅
    (CallDescribe Only "focus"
       (CallDescribe Only "inner" (CallTest Plain "second" (VOpaque 2) ∅ Done)
          (CallTest Plain "third" (VOpaque 3) ∅ Done))
       (CallTest Only "fourth" (VOpaque 4) ∅ Done)).

End Suite.

(** ** render.js: escape_html and the ordering of results *)

Module Render.

(** [str.replace(/c/g, by)] for a one-character pattern and a replacement
    text without [$]. *)
Fixpoint replace_all (c : ascii) (by_ : string) (str : string) : string :=
  match str with
  | EmptyString => EmptyString
  | String d rest =>
      if Ascii.eqb d c then by_ +:+ replace_all c by_ rest
      else String d (replace_all c by_ rest)
  end.

(** The characters [&], [<], [>], the double quote and the apostrophe. *)
Definition amp : ascii := ascii_of_nat 38.
Definition lt : ascii := ascii_of_nat 60.
Definition gt : ascii := ascii_of_nat 62.
Definition quot : ascii := ascii_of_nat 34.
Definition apos : ascii := ascii_of_nat 39.

Definition escape_html (str : string) : string :=
  replace_all apos "&#039;"
    (replace_all quot "&quot;"
       (replace_all gt "&gt;"
          (replace_all lt "&lt;"
             (replace_all amp "&amp;" str)))).

(** What becomes of one character. *)
Definition escape_char (c : ascii) : string :=
  if Ascii.eqb c amp then "&amp;"
  else if Ascii.eqb c lt then "&lt;"
  else if Ascii.eqb c gt then "&gt;"
  else if Ascii.eqb c quot then "&quot;"
  else if Ascii.eqb c apos then "&#039;"
  else String c EmptyString.

Fixpoint escape_each (str : string) : string :=
  match str with
  | EmptyString => EmptyString
  | String c rest => escape_char c +:+ escape_each rest
  end.

(** The fields of a test result that the ordering reads; [expectedToFail]
    is only tested for truthiness. *)
Record TestResult := {
  name : string;
  status : string;
  expectedToFail : bool;
}.

(** [getTestOrder(config, result)], with [config.expect_nothing] as a
    truth value. *)
Definition getTestOrder (expectNothing : bool) (result : TestResult) : Z :=
  if String.eqb (status result) "error"
     && (negb (expectedToFail result) || expectNothing) then 1
  else if String.eqb (status result) "success"
          && (expectedToFail result && negb expectNothing) then 2
  else if String.eqb (status result) "error"
          && (expectedToFail result && negb expectNothing) then 3
  else if String.eqb (status result) "flaky" then 4
  else if String.eqb (status result) "skipped" then 5
  else 99.

(** The comparison function that [craftResults] passes to [tests.sort]. *)
Definition compare_tests (expectNothing : bool) (testA testB : TestResult) : Z :=
  let a := getTestOrder expectNothing testA in
  let b := getTestOrder expectNothing testB in
  if (a <? b)%Z then -1
  else if (a >? b)%Z then 1
  else if String.ltb (name testA) (name testB) then -1
  else if String.ltb (name testB) (name testA) then 1
  else 0.

End Render.

(** * Properties *)

(** ** Running the monad *)

Lemma world_eta (w : World) :
  {| locks := locks w; locks_length := locks_length w; trace := trace w |} = w.
Proof. by destruct w. Qed.

Lemma run_bind {A B} (m : Js.M A) (k : A -> Js.M B) (w : World) :
  (m ≫= k) w =
  match m w with
  | (Ret a, w') => k a w'
  | (Throw e, w') => (Throw e, w')
  end.
Proof. reflexivity. Qed.

Lemma run_ret {A} (a : A) (w : World) : (mret a : Js.M A) w = (Ret a, w).
Proof. reflexivity. Qed.

Lemma run_when_false (m : Js.M unit) (w : World) :
  Js.when false m w = (Ret tt, w).
Proof. reflexivity. Qed.

Lemma throws_not_returns {A} (r : Outcome A * World) :
  throws r <-> ~ returns r.
Proof.
  destruct r as [[a|e] w]; unfold throws, returns; simpl; split.
  - intros [e He]; discriminate.
  - intros H; exfalso; apply H; eauto.
  - intros _ [a Ha]; discriminate.
  - eauto.
Qed.

(** ** The name pattern *)

Lemma class_matches_name_char (c : ascii) :
  class_matches resource_name_class c = true <-> name_char c.
Proof.
  destruct c as [[] [] [] [] [] [] [] []];
    vm_compute; split; intros H; try reflexivity; try discriminate; lia.
Qed.

Lemma skip_class_empty cls (s : string) :
  skip_class cls s = EmptyString <->
  Forall (fun c => class_matches cls c = true) (list_ascii_of_string s).
Proof.
  induction s as [|c s IH]; simpl.
  - split; [constructor | reflexivity].
  - destruct (class_matches cls c) eqn:Hc.
    + rewrite IH. split.
      * intros H; by constructor.
      * intros H; by inversion H.
    + split; [discriminate|].
      intros H; inversion H; congruence.
Qed.

Lemma resource_name_test_spec (r : string) :
  resource_name_test r = true <-> matches_syntax r.
Proof.
  unfold resource_name_test, matches_syntax, test_anchored_plus.
  destruct r as [|c s]; simpl.
  - split; [discriminate | intros [H _]; congruence].
  - rewrite andb_true_iff, String.eqb_eq, skip_class_empty.
    rewrite Forall_cons, <- class_matches_name_char.
    split.
    + intros [Hc Hs]. split; [discriminate|]. split; [done|].
      eapply Forall_impl; [exact Hs|]. intros x Hx; by apply class_matches_name_char.
    + intros [_ [Hc Hs]]. split; [done|].
      eapply Forall_impl; [exact Hs|]. intros x Hx; by apply class_matches_name_char.
Qed.

Lemma resource_name_test_false (r : string) :
  resource_name_test r = false <-> ~ matches_syntax r.
Proof.
  rewrite <- resource_name_test_spec. destruct (resource_name_test r); split; congruence.
Qed.

(** ** annotateTaskResources *)

Lemma check_names_spec (task : Task) (rs : list string) (w : World) :
  (Forall matches_syntax rs /\
   Js.for_of rs (fun r => Js.assert (resource_name_test r) (invalid_name_msg task r)) w
   = (Ret tt, w))
  \/
  (exists pre r post,
      rs = pre ++ r :: post /\ Forall matches_syntax pre /\ ~ matches_syntax r /\
      Js.for_of rs (fun r => Js.assert (resource_name_test r) (invalid_name_msg task r)) w
      = (Throw (AssertionError (invalid_name_msg task r)), w)).
Proof.
  induction rs as [|r rs IH]; simpl.
  - left. split; [constructor | reflexivity].
  - unfold Js.bind, Js.assert at 1 3.
    destruct (resource_name_test r) eqn:Hr.
    + apply resource_name_test_spec in Hr.
      destruct IH as [[Hall Hrun] | (pre & r' & post & -> & Hpre & Hbad & Hrun)].
      * left. split; [by constructor | exact Hrun].
      * right. exists (r :: pre), r', post. repeat split; try done. by constructor.
    + apply resource_name_test_false in Hr.
      right. exists [], r, rs. repeat split; try done.
Qed.

(** C8. Validation of a task fails fatally exactly when locking is not
    globally disabled and some declared resource name does not match
    [[A-Za-z0-9_-]+]; the failure is the assertion whose message reads
    "Invalid resource name in task <id>: <the name as JSON>", for the id of
    the task and the first offending name; with locking globally disabled
    nothing is checked; and validation leaves the state as it found it. *)
Theorem annotateTaskResources_spec (config : Config) (task : Task) (w : World) :
  snd (annotateTaskResources config task w) = w /\
  (throws (annotateTaskResources config task w) <->
   no_locking config = false /\
   exists r, r ∈ resources task /\ ~ matches_syntax r) /\
  (forall e, fst (annotateTaskResources config task w) = Throw e ->
     exists pre r post,
       resources task = pre ++ r :: post /\ Forall matches_syntax pre /\
       ~ matches_syntax r /\ e = AssertionError (invalid_name_msg task r) /\
       e = AssertionError [PStr "Invalid resource name in task ";
                           PStr (id task); PStr ": "; PJson r] /\
       PStr (id task) ∈ invalid_name_msg task r /\
       PJson r ∈ invalid_name_msg task r) /\
  (no_locking config = true ->
     annotateTaskResources config task w = (Ret tt, w)).
Proof.
  unfold annotateTaskResources, throws.
  destruct (no_locking config) eqn:Hn.
  - split; [done|]. split; [|split; [|done]].
    + split; [intros [e He]; discriminate | intros [? _]; discriminate].
    + intros e He; discriminate.
  - destruct (check_names_spec task (resources task) w)
      as [[Hall ->] | (pre & r & post & Hrs & Hpre & Hbad & ->)]; simpl.
    + split; [done|]. split; [|split; [|done]].
      * split; [intros [e He]; discriminate|].
        intros [_ (r & Hin & Hbad)]. exfalso. apply Hbad.
        rewrite Forall_forall in Hall. by apply Hall.
      * intros e He; discriminate.
    + split; [done|]. split; [|split; [|done]].
      * split; [|eauto]. intros _. split; [done|].
        exists r. split; [|done]. rewrite Hrs. set_solver.
      * intros e [= <-]. exists pre, r, post.
        split; [done|]. split; [done|]. split; [done|]. split; [done|].
        split; [done|]. unfold invalid_name_msg.
        split; [do 1 right; by left | do 3 right; by left].
Qed.

(** ** The insertion loop and [acquire] *)

Lemma existsb_has (s : gset string) (rs : list string) :
  existsb (has s) rs = true <-> exists r, r ∈ rs /\ r ∈ s.
Proof.
  rewrite existsb_exists. unfold has. split.
  - intros (r & Hin & Hr). exists r. rewrite list_elem_of_In.
    split; [done|]. by apply bool_decide_eq_true in Hr.
  - intros (r & Hin & Hr). exists r. rewrite <- list_elem_of_In.
    split; [done|]. by apply bool_decide_eq_true.
Qed.

Lemma existsb_has_false (s : gset string) (rs : list string) :
  existsb (has s) rs = false <-> forall r, r ∈ rs -> r ∉ s.
Proof.
  destruct (existsb (has s) rs) eqn:H.
  - apply existsb_has in H as (r & Hin & Hr). split; [discriminate|].
    intros Hall. exfalso. by apply (Hall r).
  - split; [|done]. intros _ r Hin Hr.
    assert (existsb (has s) rs = true) by (apply existsb_has; eauto).
    congruence.
Qed.

Lemma for_of_locks_add (rs : list string) (w : World) :
  Js.for_of rs locks_add w = Js.set_locks (names rs ∪ locks w) w.
Proof.
  revert w. induction rs as [|r rs IH]; intros w; simpl.
  - unfold Js.ret, Js.set_locks, names. simpl.
    rewrite (left_id_L ∅ (∪)). by rewrite world_eta.
  - unfold Js.bind, locks_add at 1. simpl. rewrite IH.
    unfold Js.set_locks, names. simpl. do 2 f_equal.
    rewrite (assoc_L (∪)). f_equal. apply (comm_L (∪)).
Qed.

Lemma acquire_add_run (config : Config) (task : Task) (w : World) :
  acquire_add config task w =
  (Ret true,
   {| locks := names (resources task) ∪ locks w;
      locks_length := locks_length w;
      trace := trace w ++ log_if (verbose config) (LogVerbose (acquired_msg task)) |}).
Proof.
  unfold acquire_add. rewrite !run_bind, for_of_locks_add. simpl.
  destruct (verbose config); simpl; [done|].
  by rewrite app_nil_r.
Qed.

Section Acquire.

Variable externalAcquire : list Event -> list string -> Z -> ExtResponse.

Lemma acquire_disabled (config : Config) (task : Task) (w : World) :
  no_locking config = true -> acquire externalAcquire config task w = (Ret true, w).
Proof. intros H. unfold acquire. by rewrite H. Qed.

Lemma acquire_no_resources (config : Config) (task : Task) (w : World) :
  resources task = [] -> acquire externalAcquire config task w = (Ret true, w).
Proof.
  intros H. unfold acquire. rewrite H. by destruct (no_locking config).
Qed.

(** Past the two early returns the body no longer looks at the shape of
    the resource list. *)
Lemma acquire_enabled (config : Config) (task : Task) (w : World) :
  no_locking config = false -> resources task <> [] ->
  acquire externalAcquire config task w =
  if existsb (has (locks w)) (resources task) then
    (Ret false,
     {| locks := locks w; locks_length := locks_length w;
        trace := trace w ++
          log_if (verbose config)
            (LogVerbose (failed_msg task
                           (List.filter (has (locks w)) (resources task)))) |})
  else if no_external_locking config then acquire_add config task w
  else
    let w1 := {| locks := locks w; locks_length := locks_length w;
                 trace := trace w ++ [ExtAcquire (resources task) 40000] |} in
    match externalAcquire (trace w) (resources task) 40000 with
    | ExtTrue => acquire_add config task w1
    | ExtLock l =>
        (Ret false,
         {| locks := locks w; locks_length := locks_length w;
            trace := trace w1 ++
              log_if (verbose config) (LogVerbose (ex_failed_msg task l)) |})
    | ExtError stack =>
        (Ret false,
         {| locks := locks w; locks_length := locks_length w;
            trace := trace w1 ++ [Color "red" (lockserver_msg task stack)] |})
    end.
Proof.
  intros Hn Hrs. unfold acquire. rewrite Hn.
  destruct (resources task) as [|r0 rs0] eqn:Hres; [done|]. rewrite <- Hres.
  rewrite run_bind. simpl.
  destruct (existsb (has (locks w)) (resources task)).
  - rewrite run_bind. destruct (verbose config); simpl; [done|].
    by rewrite app_nil_r, world_eta.
  - destruct (no_external_locking config); simpl; [done|].
    rewrite run_bind. simpl.
    destruct (externalAcquire (trace w) (resources task) 40000); [done| |done].
    rewrite run_bind. destruct (verbose config); simpl; [done|].
    by rewrite app_nil_r.
Qed.

End Acquire.

(** ** The removal loop of [release] *)

Lemma for_of_cons_ret {A} (body : A -> Js.M unit) (x : A) (l : list A)
    (w w1 : World) :
  body x w = (Ret tt, w1) ->
  Js.for_of (x :: l) body w = Js.for_of l body w1.
Proof. intros H. simpl. unfold Js.bind. by rewrite H. Qed.

Lemma for_of_cons_throw {A} (body : A -> Js.M unit) (x : A) (l : list A)
    (w w1 : World) (e : Error) :
  body x w = (Throw e, w1) ->
  Js.for_of (x :: l) body w = (Throw e, w1).
Proof. intros H. simpl. unfold Js.bind. by rewrite H. Qed.

Lemma names_cons (r : string) (rs : list string) :
  names (r :: rs) = {[r]} ∪ names rs.
Proof. reflexivity. Qed.

Lemma elem_of_names (r : string) (rs : list string) : r ∈ names rs <-> r ∈ rs.
Proof. unfold names. apply elem_of_list_to_set. Qed.

Lemma difference_cons (s : gset string) (r : string) (rs : list string) :
  (s ∖ {[r]}) ∖ names rs = s ∖ names (r :: rs).
Proof.
  rewrite names_cons. apply set_eq. intros x.
  rewrite !elem_of_difference, elem_of_union, elem_of_singleton. tauto.
Qed.

Lemma release_one_run (task : Task) (r : string) (w : World) :
  release_one task r w =
  if has (locks w) r then Js.set_locks (locks w ∖ {[r]}) w
  else (Throw (AssertionError (not_held_msg task r (locks w))), w).
Proof.
  unfold release_one. rewrite !run_bind. simpl. unfold Js.assert.
  by destruct (has (locks w) r).
Qed.

(** The loop either removes a duplicate-free, fully held list, or stops at
    the first name that is not held when its turn comes: a name that was
    never held, or a second occurrence of a name the loop already deleted.
    The names in front of it are gone by then. *)
Lemma release_loop_spec (task : Task) (rs : list string) (w : World) :
  (NoDup rs /\ (forall r, r ∈ rs -> r ∈ locks w) /\
   Js.for_of rs (release_one task) w = Js.set_locks (locks w ∖ names rs) w)
  \/
  (exists pre r post,
      rs = pre ++ r :: post /\ NoDup pre /\
      (forall x, x ∈ pre -> x ∈ locks w) /\
      (r ∉ locks w \/ r ∈ pre) /\
      Js.for_of rs (release_one task) w =
      (Throw (AssertionError (not_held_msg task r (locks w ∖ names pre))),
       {| locks := locks w ∖ names pre; locks_length := locks_length w;
          trace := trace w |})).
Proof.
  revert w. induction rs as [|r rs IH]; intros w.
  - left. split; [constructor|]. split; [intros r Hr; by apply elem_of_nil in Hr|].
    simpl. unfold Js.ret, Js.set_locks, names. simpl.
    rewrite difference_empty_L. by rewrite world_eta.
  - pose proof (release_one_run task r w) as Hone. unfold has in Hone.
    destruct (bool_decide (r ∈ locks w)) eqn:Hr.
    + apply bool_decide_eq_true in Hr. unfold Js.set_locks in Hone.
      set (w1 := {| locks := locks w ∖ {[r]}; locks_length := locks_length w;
                    trace := trace w |}) in *.
      rewrite (for_of_cons_ret _ _ _ _ _ Hone).
      destruct (IH w1) as [(Hnd & Hall & Hrun) | (pre & r' & post & -> & Hnd & Hall & Hbad & Hrun)].
      * left. split; [|split].
        -- constructor; [|done]. intros Hin. apply Hall in Hin. simpl in Hin.
           apply elem_of_difference in Hin as [_ Hne]. apply Hne. by apply elem_of_singleton.
        -- intros x Hx. apply elem_of_cons in Hx as [->|Hx]; [done|].
           apply Hall in Hx. simpl in Hx. by apply elem_of_difference in Hx as [? _].
        -- rewrite Hrun. unfold Js.set_locks. simpl. by rewrite difference_cons.
      * right. exists (r :: pre), r', post. split; [done|]. split; [|split; [|split]].
        -- constructor; [|done]. intros Hin. apply Hall in Hin. simpl in Hin.
           apply elem_of_difference in Hin as [_ Hne]. apply Hne. by apply elem_of_singleton.
        -- intros x Hx. apply elem_of_cons in Hx as [->|Hx]; [done|].
           apply Hall in Hx. simpl in Hx. by apply elem_of_difference in Hx as [? _].
        -- destruct Hbad as [Hbad|Hbad]; [|right; by apply elem_of_cons; right].
           simpl in Hbad. destruct (decide (r' = r)) as [->|Hne].
           ++ right. by apply elem_of_cons; left.
           ++ left. intros Hin. apply Hbad. apply elem_of_difference. split; [done|].
              intros Hs. by apply elem_of_singleton in Hs.
        -- rewrite Hrun. simpl. by rewrite difference_cons.
    + apply bool_decide_eq_false in Hr.
      rewrite (for_of_cons_throw _ _ _ _ _ _ Hone).
      right. exists [], r, rs. split; [done|]. split; [constructor|].
      split; [intros x Hx; by apply elem_of_nil in Hx|]. split; [by left|].
      unfold names. simpl. rewrite difference_empty_L. by rewrite world_eta.
Qed.

Section Release.

Variable externalRelease : list Event -> list string -> ExtResponse.

Lemma release_disabled (config : Config) (task : Task) (w : World) :
  no_locking config = true ->
  release externalRelease config task w = (Ret JsTrue, w).
Proof. intros H. unfold release. by rewrite H. Qed.

Lemma release_no_resources (config : Config) (task : Task) (w : World) :
  no_locking config = false -> resources task = [] ->
  release externalRelease config task w = (Ret JsUndefined, w).
Proof. intros Hn H. unfold release. by rewrite Hn, H. Qed.

Lemma after_external_release_locks config task w :
  locks (after_external_release externalRelease config task w) = locks w.
Proof. unfold after_external_release. by destruct (no_external_locking config). Qed.

Lemma release_enabled (config : Config) (task : Task) (w : World) :
  no_locking config = false -> resources task <> [] ->
  release externalRelease config task w =
  match Js.for_of (resources task) (release_one task)
          (after_external_release externalRelease config task w) with
  | (Ret _, w2) =>
      (Ret JsUndefined,
       {| locks := locks w2; locks_length := locks_length w2;
          trace := trace w2 ++
            log_if (verbose config) (LogVerbose (released_msg task)) |})
  | (Throw e, w2) => (Throw e, w2)
  end.
Proof.
  intros Hn Hrs. unfold release, after_external_release. rewrite Hn.
  destruct (resources task) as [|r0 rs0] eqn:Hres; [done|]. rewrite <- Hres.
  rewrite run_bind.
  assert (Hext :
    Js.when (negb (no_external_locking config))
      (response ← await_externalRelease externalRelease (resources task);
       match response with
       | ExtTrue => mret ()
       | ExtLock l =>
           Js.when (verbose config)
             (Js.emit (LogVerbose (ex_release_failed_msg task l)))
       | ExtError stack => Js.emit (Log (ex_release_error_msg task stack))
       end) w
    = (Ret tt,
       if no_external_locking config then w
       else {| locks := locks w; locks_length := locks_length w;
               trace := trace w ++ ExtRelease (resources task)
                 :: ext_release_log config task
                      (externalRelease (trace w) (resources task)) |})).
  { destruct (no_external_locking config); simpl; [done|].
    rewrite run_bind. simpl.
    destruct (externalRelease (trace w) (resources task)); simpl.
    - done.
    - unfold Js.when, log_if. destruct (verbose config); [|done].
      unfold Js.emit. simpl. by rewrite <- app_assoc.
    - unfold Js.emit. simpl. by rewrite <- app_assoc. }
  rewrite Hext. rewrite run_bind.
  destruct (Js.for_of _ _ _) as [[[]|e] w2]; [|done].
  rewrite run_bind. destruct (verbose config); simpl; [done|].
  by rewrite app_nil_r, world_eta.
Qed.

End Release.

Lemma elem_of_split {A} (pre post : list A) (r : A) : r ∈ pre ++ r :: post.
Proof. apply elem_of_app. right. by left. Qed.

Section ReleaseClaims.

Variable externalRelease : list Event -> list string -> ExtResponse.

(** C3 (amended). With locking enabled and a non-empty resource list,
    [release] fails fatally if some declared resource is not in the lock
    set; it returns normally exactly when the list is duplicate-free and
    fully held, and then every declared resource has been removed.  The
    removal is not all-or-nothing: when the fatal failure is raised, the
    names listed before the offending occurrence have already been
    removed, and only those. *)
Theorem release_removal (config : Config) (task : Task) (w : World) :
  no_locking config = false -> resources task <> [] ->
  let res := release externalRelease config task w in
  ((exists r, r ∈ resources task /\ r ∉ locks w) -> throws res) /\
  (returns res <->
   NoDup (resources task) /\ forall r, r ∈ resources task -> r ∈ locks w) /\
  (returns res ->
   locks (snd res) = locks w ∖ names (resources task) /\
   forall r, r ∈ resources task -> r ∉ locks (snd res)) /\
  (throws res ->
   exists pre r post,
     resources task = pre ++ r :: post /\ NoDup pre /\
     (forall x, x ∈ pre -> x ∈ locks w) /\
     (r ∉ locks w \/ r ∈ pre) /\
     fst res = Throw (AssertionError (not_held_msg task r (locks w ∖ names pre))) /\
     locks (snd res) = locks w ∖ names pre).
Proof.
  intros Hn Hrs res. subst res. rewrite (release_enabled _ _ _ _ Hn Hrs).
  pose proof (after_external_release_locks externalRelease config task w) as Hl.
  destruct (release_loop_spec task (resources task)
              (after_external_release externalRelease config task w))
    as [(Hnd & Hall & ->) | (pre & r & post & Heq & Hnd & Hall & Hbad & ->)];
    rewrite Hl in *; unfold throws, returns; simpl.
  - split; [|split; [|split]].
    + intros (r & Hin & Hnot). exfalso. by apply Hnot, Hall.
    + split; [done | eauto].
    + intros _. split; [done|]. intros r Hin Hr.
      apply elem_of_difference in Hr as [_ Hr]. by apply Hr, elem_of_names.
    + intros [e He]; discriminate.
  - split; [|split; [|split]].
    + eauto.
    + split; [intros [a Ha]; discriminate|].
      intros [Hnd' Hall']. exfalso. destruct Hbad as [Hbad|Hbad].
      * apply Hbad, Hall'. rewrite Heq. apply elem_of_split.
      * rewrite Heq in Hnd'. apply NoDup_app in Hnd' as (_ & Hdisj & _).
        apply (Hdisj r Hbad). by left.
    + intros [a Ha]; discriminate.
    + intros _. by exists pre, r, post.
Qed.

(** C4 (amended). With locking and external locking enabled, for a task
    whose declared resources are pairwise distinct and all in the lock
    set: whatever [externalRelease] answers, one release call is issued,
    a transport error is logged, a conflict descriptor is logged when
    verbose logging (or a log file) is configured, [release] returns
    normally, and every declared resource has been removed. *)
Theorem release_external_failure_swallowed
    (config : Config) (task : Task) (w : World) :
  no_locking config = false -> no_external_locking config = false ->
  resources task <> [] -> NoDup (resources task) ->
  (forall r, r ∈ resources task -> r ∈ locks w) ->
  let response := externalRelease (trace w) (resources task) in
  let res := release externalRelease config task w in
  fst res = Ret JsUndefined /\
  locks (snd res) = locks w ∖ names (resources task) /\
  (forall r, r ∈ resources task -> r ∉ locks (snd res)) /\
  trace (snd res) =
    trace w ++ ExtRelease (resources task)
      :: ext_release_log config task response
      ++ log_if (verbose config) (LogVerbose (released_msg task)) /\
  (forall stack, response = ExtError stack ->
     Log (ex_release_error_msg task stack) ∈ trace (snd res)) /\
  (forall l, response = ExtLock l -> verbose config = true ->
     LogVerbose (ex_release_failed_msg task l) ∈ trace (snd res)).
Proof.
  intros Hn He Hrs Hnd Hall response res.
  assert (Hres : res =
    (Ret JsUndefined,
     {| locks := locks w ∖ names (resources task);
        locks_length := locks_length w;
        trace := trace w ++ ExtRelease (resources task)
          :: ext_release_log config task response
          ++ log_if (verbose config) (LogVerbose (released_msg task)) |})).
  { subst res. rewrite (release_enabled _ _ _ _ Hn Hrs).
    destruct (release_loop_spec task (resources task)
                (after_external_release externalRelease config task w))
      as [(_ & _ & ->) | (pre & r & post & Heq & _ & _ & Hbad & _)].
    - unfold after_external_release. rewrite He. simpl.
      by rewrite <- app_assoc.
    - exfalso. rewrite after_external_release_locks in Hbad.
      destruct Hbad as [Hbad|Hbad].
      + apply Hbad, Hall. rewrite Heq. apply elem_of_split.
      + rewrite Heq in Hnd. apply NoDup_app in Hnd as (_ & Hdisj & _).
        apply (Hdisj r Hbad). by left. }
  rewrite Hres. simpl. split; [done|]. split; [done|]. split; [|split; [done|split]].
  - intros r Hin Hr. apply elem_of_difference in Hr as [_ Hr].
    by apply Hr, elem_of_names.
  - intros stack ->. simpl. set_solver.
  - intros l -> Hv. simpl. rewrite Hv. simpl. set_solver.
Qed.

End ReleaseClaims.

Lemma release_removal_witness :
  no_locking local_only = false /\ resources task_ab <> [] /\
  (returns (release release_ok local_only task_ab (holding ["a"; "b"])) <->
   NoDup (resources task_ab) /\
   forall r, r ∈ resources task_ab -> r ∈ locks (holding ["a"; "b"])).
Proof.
  split; [reflexivity|]. split; [discriminate|].
  apply (release_removal release_ok local_only task_ab (holding ["a"; "b"]));
    [reflexivity | discriminate].
Defined.

(** C3 as stated fails: releasing [a; b] while only [a] is held raises the
    fatal failure after [a] has been removed. *)
Lemma release_not_all_or_nothing :
  throws (release release_ok local_only task_ab (holding ["a"])) /\
  "a" ∈ resources task_ab /\
  "a" ∈ locks (holding ["a"]) /\
  "a" ∉ locks (snd (release release_ok local_only task_ab (holding ["a"]))).
Proof.
  split; [eexists; vm_compute; reflexivity|].
  split; [compute_done|]. split; compute_done.
Qed.

Lemma release_external_failure_swallowed_witness :
  fst (release release_unreachable locking_on task_ab (holding ["a"; "b"]))
  = Ret JsUndefined /\
  Log (ex_release_error_msg task_ab "Error: connect ECONNREFUSED")
    ∈ trace (snd (release release_unreachable locking_on task_ab
                    (holding ["a"; "b"]))).
Proof.
  pose proof (release_external_failure_swallowed release_unreachable
                locking_on task_ab (holding ["a"; "b"])) as H.
  destruct H as (Hret & _ & _ & _ & Hlog & _).
  - reflexivity.
  - reflexivity.
  - discriminate.
  - compute_done.
  - apply Forall_forall. compute_done.
  - split; [exact Hret|]. by apply Hlog.
Defined.

(** C4 as stated fails: [a; a; b] is fully held and the lock server
    answers with a conflict descriptor; without verbose logging nothing is
    logged about it, and [release] raises the fatal failure at the second
    [a], leaving [b] in the lock set. *)
Lemma release_duplicate_leaves_lock :
  (forall r, r ∈ resources task_aab -> r ∈ locks (holding ["a"; "b"])) /\
  throws (release release_conflict locking_on task_aab (holding ["a"; "b"])) /\
  "b" ∈ locks (snd (release release_conflict locking_on task_aab
                      (holding ["a"; "b"]))) /\
  trace (snd (release release_conflict locking_on task_aab (holding ["a"; "b"])))
  = [ExtRelease ["a"; "a"; "b"]].
Proof.
  split; [|split; [|split]].
  - apply Forall_forall. compute_done.
  - eexists; vm_compute; reflexivity.
  - compute_done.
  - reflexivity.
Qed.

(** ** What [acquire] and [release] can do to the state *)

Lemma ext_calls_app (a b : list Event) :
  ext_calls (a ++ b) = ext_calls a ++ ext_calls b.
Proof. unfold ext_calls. apply List.filter_app. Qed.

Lemma ext_calls_log_if (c : bool) (m : Msg) :
  ext_calls (log_if c (LogVerbose m)) = [].
Proof. by destruct c. Qed.

Lemma waits_app (a b : list Event) : waits (a ++ b) = waits a ++ waits b.
Proof. unfold waits. apply omap_app. Qed.

Lemma waits_log_if (c : bool) (e : Event) :
  (forall ms, e <> Wait ms) -> waits (log_if c e) = [].
Proof. intros H. destruct c; [|done]. destruct e; try done. by destruct (H ms). Qed.

Section AcquireFacts.

Variable externalAcquire : list Event -> list string -> Z -> ExtResponse.
Variable externalRelease : list Event -> list string -> ExtResponse.

(** [acquire] never throws; it only ever adds to the lock set, adds
    nothing when it answers false, and never sleeps. *)
Lemma acquire_shape (config : Config) (task : Task) (w : World) :
  exists b w',
    acquire externalAcquire config task w = (Ret b, w') /\
    locks w ⊆ locks w' /\
    (b = false -> locks w' = locks w) /\
    (b = true -> no_locking config = false ->
     locks w' = names (resources task) ∪ locks w) /\
    waits (trace w') = waits (trace w).
Proof.
  destruct (no_locking config) eqn:Hn.
  { exists true, w. rewrite acquire_disabled by done. by repeat split. }
  destruct (resources task) as [|r0 rs0] eqn:Hres.
  { exists true, w. rewrite acquire_no_resources by done.
    repeat split; try done. intros _ _. unfold names. simpl.
    by rewrite (left_id_L ∅ (∪)). }
  assert (Hne : resources task <> []) by (by rewrite Hres).
  rewrite <- Hres. rewrite (acquire_enabled _ _ _ _ Hn Hne).
  assert (Hadd : forall w1, locks w1 = locks w -> waits (trace w1) = waits (trace w) ->
    exists b w', acquire_add config task w1 = (Ret b, w') /\
      locks w ⊆ locks w' /\ (b = false -> locks w' = locks w) /\
      (b = true -> false = false -> locks w' = names (resources task) ∪ locks w) /\
      waits (trace w') = waits (trace w)).
  { intros w1 Hl Hw. rewrite acquire_add_run. eexists _, _. split; [done|].
    simpl. rewrite Hl, waits_app, waits_log_if, app_nil_r by done.
    repeat split; try done. apply union_subseteq_r. }
  destruct (existsb (has (locks w)) (resources task)).
  { eexists _, _. split; [done|]. simpl.
    rewrite waits_app, waits_log_if, app_nil_r by done. by repeat split. }
  destruct (no_external_locking config); [by apply Hadd|]. cbv zeta.
  destruct (externalAcquire (trace w) (resources task) 40000).
  - apply Hadd; [done|]. simpl. by rewrite waits_app, app_nil_r.
  - eexists _, _. split; [done|]. simpl.
    rewrite !waits_app, waits_log_if, !app_nil_r by done. by repeat split.
  - eexists _, _. split; [done|]. simpl.
    rewrite !waits_app, !app_nil_r. by repeat split.
Qed.

Lemma acquire_keeps (config : Config) (task : Task) (w : World) (r : string) :
  r ∈ locks w -> r ∈ locks (snd (acquire externalAcquire config task w)).
Proof.
  intros Hr. destruct (acquire_shape config task w) as (b & w' & -> & Hsub & _).
  simpl. by apply Hsub.
Qed.

(** [release] for a task that does not declare [r] leaves [r] alone,
    also when it ends in the fatal failure. *)
Lemma release_keeps (config : Config) (task : Task) (w : World) (r : string) :
  r ∈ locks w -> r ∉ resources task ->
  r ∈ locks (snd (release externalRelease config task w)).
Proof.
  intros Hr Hnot.
  destruct (no_locking config) eqn:Hn.
  { by rewrite release_disabled. }
  destruct (resources task) as [|r0 rs0] eqn:Hres.
  { by rewrite release_no_resources. }
  assert (Hne : resources task <> []) by (by rewrite Hres).
  rewrite <- Hres in Hnot.
  rewrite (release_enabled _ _ _ _ Hn Hne).
  pose proof (after_external_release_locks externalRelease config task w) as Hl.
  destruct (release_loop_spec task (resources task)
              (after_external_release externalRelease config task w))
    as [(_ & _ & ->) | (pre & x & post & Heq & _ & _ & _ & ->)];
    simpl; rewrite Hl.
  - apply elem_of_difference. split; [done|]. by rewrite elem_of_names.
  - apply elem_of_difference. split; [done|]. rewrite elem_of_names.
    intros Hin. apply Hnot. rewrite Heq. apply elem_of_app. by left.
Qed.

Lemma run_ops_keeps (config : Config) (ops : list Op) (w : World) (r : string) :
  r ∈ locks w -> Forall (fun o => ~ releases r o) ops ->
  r ∈ locks (run_ops externalAcquire externalRelease config ops w).
Proof.
  revert w. induction ops as [|o ops IH]; intros w Hr Hall; [done|].
  inversion Hall as [|? ? Ho Hops]; subst. simpl. apply IH; [|done].
  destruct o as [t|t]; simpl.
  - by apply acquire_keeps.
  - by apply release_keeps.
Qed.

End AcquireFacts.

Section AcquireClaims.

Variable externalAcquire : list Event -> list string -> Z -> ExtResponse.
Variable externalRelease : list Event -> list string -> ExtResponse.

(** C1. With locking enabled, if some declared resource of the task is
    already in the lock set, [acquire] returns false, makes no call to
    the external client and leaves the lock set as it is.  In particular,
    once task A's [acquire] has returned true, [acquire] for a task B that
    shares a resource with A returns false after any sequence of acquire
    and release operations that does not release the shared resource. *)
Theorem acquire_blocked_locally (config : Config) (A B : Task) (w : World)
    (r : string) (ops : list Op) :
  no_locking config = false ->
  r ∈ resources B ->
  (r ∈ locks w ->
   let res := acquire externalAcquire config B w in
   fst res = Ret false /\ locks (snd res) = locks w /\
   locks_length (snd res) = locks_length w /\
   ext_calls (trace (snd res)) = ext_calls (trace w)) /\
  (r ∈ resources A ->
   fst (acquire externalAcquire config A w) = Ret true ->
   Forall (fun o => ~ releases r o) ops ->
   fst (acquire externalAcquire config B
          (run_ops externalAcquire externalRelease config ops
             (snd (acquire externalAcquire config A w)))) = Ret false).
Proof.
  intros Hn HB.
  assert (Hblocked : forall w0, r ∈ locks w0 ->
    let res := acquire externalAcquire config B w0 in
    fst res = Ret false /\ locks (snd res) = locks w0 /\
    locks_length (snd res) = locks_length w0 /\
    ext_calls (trace (snd res)) = ext_calls (trace w0)).
  { intros w0 Hr res. subst res.
    assert (Hne : resources B <> []).
    { intros Heq. rewrite Heq in HB. by apply elem_of_nil in HB. }
    rewrite (acquire_enabled _ _ _ _ Hn Hne).
    assert (Hex : existsb (has (locks w0)) (resources B) = true)
      by (apply existsb_has; eauto).
    rewrite Hex. simpl.
    by rewrite ext_calls_app, ext_calls_log_if, app_nil_r. }
  split; [by apply Hblocked|].
  intros HA Hacq Hops.
  apply Hblocked. apply run_ops_keeps; [|done].
  destruct (acquire_shape externalAcquire config A w)
    as (b & w' & Hrun & _ & _ & Htrue & _).
  rewrite Hrun in Hacq |- *. simpl in *. injection Hacq as ->.
  rewrite Htrue by done. apply elem_of_union. left. by apply elem_of_names.
Qed.

(** C2. With locking and external locking enabled, for a task with
    declared resources none of which is locally held, [acquire] issues
    exactly one lease request, for the whole resource list and 40000 ms.
    When the request succeeds every declared resource is added to the
    lock set and the result is true; on a conflict descriptor, and on a
    transport error, the result is false (nothing is thrown) and the lock
    set is unchanged. *)
Theorem acquire_external_outcomes (config : Config) (task : Task) (w : World) :
  no_locking config = false -> no_external_locking config = false ->
  resources task <> [] ->
  (forall r, r ∈ resources task -> r ∉ locks w) ->
  let res := acquire externalAcquire config task w in
  ext_calls (trace (snd res)) =
    ext_calls (trace w) ++ [ExtAcquire (resources task) 40000] /\
  match externalAcquire (trace w) (resources task) 40000 with
  | ExtTrue =>
      fst res = Ret true /\
      locks (snd res) = names (resources task) ∪ locks w /\
      (forall r, r ∈ resources task -> r ∈ locks (snd res))
  | ExtLock _ => fst res = Ret false /\ locks (snd res) = locks w
  | ExtError _ => fst res = Ret false /\ locks (snd res) = locks w
  end.
Proof.
  intros Hn He Hne Hfree res. subst res.
  rewrite (acquire_enabled _ _ _ _ Hn Hne).
  apply existsb_has_false in Hfree. rewrite Hfree, He. cbv zeta.
  destruct (externalAcquire (trace w) (resources task) 40000).
  - rewrite acquire_add_run. simpl.
    rewrite !ext_calls_app, ext_calls_log_if, app_nil_r.
    repeat split; try done.
    intros r Hr. apply elem_of_union. left. by apply elem_of_names.
  - simpl. by rewrite !ext_calls_app, ext_calls_log_if, app_nil_r.
  - simpl. rewrite !ext_calls_app. simpl. by rewrite app_nil_r.
Qed.

(** C10. A task whose resource list names some resource twice, none of
    its resources being held, with external locking disabled or granting
    the request: [acquire] returns true and the lock set holds each name
    once; the matching [release] then raises the fatal failure, at the
    first position of the list that repeats an earlier name. *)
Theorem duplicate_resource_release_fails
    (config : Config) (task : Task) (w : World) :
  no_locking config = false ->
  ~ NoDup (resources task) ->
  (forall r, r ∈ resources task -> r ∉ locks w) ->
  no_external_locking config = true \/
    externalAcquire (trace w) (resources task) 40000 = ExtTrue ->
  let acq := acquire externalAcquire config task w in
  let rel := release externalRelease config task (snd acq) in
  fst acq = Ret true /\
  locks (snd acq) = names (resources task) ∪ locks w /\
  exists pre r post,
    resources task = pre ++ r :: post /\ NoDup pre /\ r ∈ pre /\
    fst rel = Throw (AssertionError
                       (not_held_msg task r (locks (snd acq) ∖ names pre))) /\
    locks (snd rel) = locks (snd acq) ∖ names pre.
Proof.
  intros Hn Hdup Hfree Hext acq rel.
  assert (Hne : resources task <> []).
  { intros Heq. apply Hdup. rewrite Heq. constructor. }
  assert (Hacq : fst acq = Ret true /\
                 locks (snd acq) = names (resources task) ∪ locks w).
  { subst acq. rewrite (acquire_enabled _ _ _ _ Hn Hne).
    apply existsb_has_false in Hfree. rewrite Hfree.
    destruct (no_external_locking config) eqn:He.
    - by rewrite acquire_add_run.
    - destruct Hext as [? | ->]; [done|]. cbv zeta. by rewrite acquire_add_run. }
  destruct Hacq as [Hret Hlocks]. split; [done|]. split; [done|].
  subst rel. rewrite (release_enabled _ _ _ _ Hn Hne).
  pose proof (after_external_release_locks externalRelease config task (snd acq))
    as Hl.
  destruct (release_loop_spec task (resources task)
              (after_external_release externalRelease config task (snd acq)))
    as [(Hnd & _) | (pre & r & post & Heq & Hnd & _ & Hbad & ->)];
    [by destruct Hdup|].
  rewrite Hl in *. exists pre, r, post. cbn [fst snd locks].
  split; [done|]. split; [done|]. split; [|done].
  destruct Hbad as [Hbad|?]; [|done]. exfalso. apply Hbad.
  rewrite Hlocks. apply elem_of_union. left. apply elem_of_names.
  rewrite Heq. apply elem_of_split.
Qed.

End AcquireClaims.

Lemma acquire_blocked_locally_witness :
  fst (acquire grant local_only task_B
         (run_ops grant release_ok local_only
            [OpAcquire task_C; OpRelease task_C]
            (snd (acquire grant local_only task_A fresh)))) = Ret false.
Proof.
  refine (proj2 (acquire_blocked_locally grant release_ok local_only
                   task_A task_B fresh "r1"
                   [OpAcquire task_C; OpRelease task_C] _ _) _ _ _).
  - reflexivity.
  - compute_done.
  - compute_done.
  - vm_compute. reflexivity.
  - repeat constructor; simpl; [tauto | compute_done].
Defined.

Lemma acquire_external_outcomes_witness :
  ext_calls (trace (snd (acquire grant locking_on task_ab fresh)))
  = [ExtAcquire ["a"; "b"] 40000] /\
  fst (acquire grant locking_on task_ab fresh) = Ret true /\
  locks (snd (acquire grant locking_on task_ab fresh)) = names ["a"; "b"] ∪ ∅.
Proof.
  pose proof (acquire_external_outcomes grant locking_on task_ab fresh) as H.
  destruct H as (Hcalls & Hret & Hlocks & _).
  - reflexivity.
  - reflexivity.
  - discriminate.
  - apply Forall_forall. compute_done.
  - exact (conj Hcalls (conj Hret Hlocks)).
Defined.

Lemma duplicate_resource_release_fails_witness :
  fst (acquire grant local_only task_twice fresh) = Ret true /\
  exists pre r post,
    resources task_twice = pre ++ r :: post /\ NoDup pre /\ r ∈ pre /\
    fst (release release_ok local_only task_twice
           (snd (acquire grant local_only task_twice fresh)))
    = Throw (AssertionError
               (not_held_msg task_twice r
                  (locks (snd (acquire grant local_only task_twice fresh))
                     ∖ names pre))).
Proof.
  pose proof (duplicate_resource_release_fails grant release_ok
                local_only task_twice fresh) as H.
  destruct H as (Hret & _ & pre & r & post & Heq & Hnd & Hin & Hrel & _).
  - reflexivity.
  - intros Hnd. apply NoDup_cons in Hnd as [Hnot _]. apply Hnot. by left.
  - apply Forall_forall. compute_done.
  - by left.
  - split; [exact Hret|]. by exists pre, r, post.
Defined.

(** ** shutdown *)

Lemma shutdown_run (config : Config) (w : World) :
  shutdown config w =
  let w' := {| locks := locks w; locks_length := Some 0;
               trace := trace w ++ [ExtShutdown] |} in
  if (Z.of_nat (size (locks w)) =? 0)%Z then (Ret tt, w')
  else (Throw (AssertionError (still_locked_msg (locks w))), w').
Proof. reflexivity. Qed.

(** C7. [shutdown] tears down the external client connection and then
    fails fatally exactly when the lock set is not empty; with an empty
    lock set it completes normally. *)
Theorem shutdown_spec (config : Config) (w : World) :
  let res := shutdown config w in
  trace (snd res) = trace w ++ [ExtShutdown] /\
  locks (snd res) = locks w /\
  (throws res <-> locks w <> ∅) /\
  (returns res <-> locks w = ∅) /\
  (forall e, fst res = Throw e ->
     e = AssertionError (still_locked_msg (locks w))).
Proof.
  cbv zeta. rewrite shutdown_run. unfold throws, returns. cbv zeta.
  destruct (Z.eqb_spec (Z.of_nat (size (locks w))) 0) as [Hz|Hz]; simpl.
  - assert (He : locks w = ∅) by (apply leibniz_equiv, size_empty_iff; lia).
    split; [done|]. split; [done|]. split; [|split].
    + split; [intros [e ?]; discriminate | done].
    + split; [done | eauto].
    + intros e ?; discriminate.
  - assert (He : locks w <> ∅).
    { intros He. apply Hz. rewrite He. by rewrite size_empty. }
    split; [done|]. split; [done|]. split; [|split].
    + split; [done | eauto].
    + split; [intros [a ?]; discriminate | done].
    + by intros e [= <-].
Qed.

(** ** acquireEventually *)

Lemma waitTime_at_closed (k : nat) :
  waitTime_at k = Z.min 10000 (50 * 2 ^ Z.of_nat k).
Proof.
  induction k as [|k IH]; [reflexivity|].
  cbn [waitTime_at]. rewrite IH, Nat2Z.inj_succ, Z.pow_succ_r by lia.
  assert (0 < 2 ^ Z.of_nat k) by (apply Z.pow_pos_nonneg; lia). lia.
Qed.

Lemma waitTime_at_bounds (k : nat) :
  50 <= waitTime_at k /\ waitTime_at k <= waitTime_at (S k) /\
  waitTime_at (S k) <= 10000.
Proof.
  assert (H : forall n, 50 <= waitTime_at n <= 10000).
  { induction n as [|n IH]; cbn [waitTime_at]; lia. }
  specialize (H k). cbn [waitTime_at]. lia.
Qed.

Section Eventually.

Variable externalAcquire : list Event -> list string -> Z -> ExtResponse.
Variable other_tasks : list Event -> gset string -> gset string.
Variable config : Config.
Variable task : Task.
Variable w0 : World.

Let loop (fuel k : nat) :=
  acquireEventually_loop externalAcquire other_tasks fuel config task
    (waitTime_at k) (attempt_world externalAcquire other_tasks config task w0 k).
Let try_at (k : nat) := attempt externalAcquire other_tasks config task w0 k.
Let after (k : nat) :=
  snd (acquire externalAcquire config task
         (attempt_world externalAcquire other_tasks config task w0 k)).

Lemma attempt_bool (k : nat) : exists b, try_at k = Ret b.
Proof.
  unfold try_at, attempt.
  destruct (acquire_shape externalAcquire config task
              (attempt_world externalAcquire other_tasks config task w0 k))
    as (b & w' & -> & _). by exists b.
Qed.

(** One evaluation of the loop condition: the loop is left when the
    attempt gives true, and otherwise sleeps and goes on with the doubled,
    capped delay. *)
Lemma loop_step (fuel k : nat) :
  loop (S fuel) k =
  match try_at k with
  | Ret true => Some (Ret true, after k)
  | Ret false => loop fuel (S k)
  | Throw e => Some (Throw e, after k)
  end.
Proof.
  unfold loop, try_at, after, attempt. cbn [acquireEventually_loop attempt_world].
  by destruct (acquire externalAcquire config task _) as [[[]|e] w1].
Qed.

Lemma loop_returns (fuel k : nat) (r : Outcome bool) (w' : World) :
  loop fuel k = Some (r, w') ->
  exists n, (n < fuel)%nat /\
    (forall j, (j < n)%nat -> try_at (k + j) = Ret false) /\
    try_at (k + n) = Ret true /\ r = Ret true /\ w' = after (k + n).
Proof.
  revert k. induction fuel as [|fuel IH]; intros k; [done|].
  rewrite loop_step. destruct (attempt_bool k) as [[] Hb]; rewrite Hb.
  - intros [= <- <-]. exists 0%nat. rewrite Nat.add_0_r.
    repeat split; try done; [lia | intros j Hj; lia].
  - intros Hrun. destruct (IH _ Hrun) as (n & Hn & Hfalse & Htrue & -> & ->).
    exists (S n). rewrite <- Nat.add_succ_comm.
    repeat split; try done; [lia|].
    intros [|j] Hj; [by rewrite Nat.add_0_r|].
    rewrite <- Nat.add_succ_comm. apply Hfalse. lia.
Qed.

Lemma loop_succeeds (n k fuel : nat) :
  (forall j, (j < n)%nat -> try_at (k + j) = Ret false) ->
  try_at (k + n) = Ret true -> (n < fuel)%nat ->
  loop fuel k = Some (Ret true, after (k + n)).
Proof.
  revert k fuel. induction n as [|n IH]; intros k fuel Hfalse Htrue Hlt;
    (destruct fuel as [|fuel]; [lia|]); rewrite loop_step.
  - rewrite Nat.add_0_r in *. by rewrite Htrue.
  - rewrite <- (Nat.add_0_r k) at 1. rewrite (Hfalse 0%nat) by lia.
    rewrite <- Nat.add_succ_comm in *. apply IH; [|done|lia].
    intros j Hj. rewrite Nat.add_succ_comm. apply Hfalse. lia.
Qed.

Lemma first_success (k : nat) :
  try_at k = Ret true ->
  exists n, (n <= k)%nat /\
    (forall j, (j < n)%nat -> try_at j = Ret false) /\ try_at n = Ret true.
Proof.
  assert (H : forall m,
    (forall j, (j < m)%nat -> try_at j = Ret false) \/
    exists n, (n < m)%nat /\
      (forall j, (j < n)%nat -> try_at j = Ret false) /\ try_at n = Ret true).
  { induction m as [|m [IH|(n & Hn & IH)]].
    - left. intros j Hj. lia.
    - destruct (attempt_bool m) as [[] Hb].
      + right. exists m. split; [lia|]. by split.
      + left. intros j Hj. destruct (decide (j = m)) as [->|]; [done|].
        apply IH. lia.
    - right. exists n. split; [lia|done]. }
  intros Hk. destruct (H k) as [Hall|(n & Hn & Hfalse & Htrue)].
  - exists k. by repeat split.
  - exists n. repeat split; try done. lia.
Qed.

Lemma waits_attempt_world (k : nat) :
  waits (trace (attempt_world externalAcquire other_tasks config task w0 k)) =
  waits (trace w0) ++ map waitTime_at (seq 0 k).
Proof.
  induction k as [|k IH]; [by rewrite app_nil_r|].
  cbn [attempt_world]. unfold wait. cbn [snd trace].
  destruct (acquire_shape externalAcquire config task
              (attempt_world externalAcquire other_tasks config task w0 k))
    as (b & w' & -> & _ & _ & _ & Hw).
  cbn [snd]. rewrite waits_app, Hw, IH, seq_S, map_app, <- app_assoc.
  reflexivity.
Qed.

Lemma waits_after (k : nat) :
  waits (trace (after k)) = waits (trace w0) ++ map waitTime_at (seq 0 k).
Proof.
  unfold after.
  destruct (acquire_shape externalAcquire config task
              (attempt_world externalAcquire other_tasks config task w0 k))
    as (b & w' & Hrun & _ & _ & _ & Hw).
  rewrite Hrun. cbn [snd]. rewrite Hw. apply waits_attempt_world.
Qed.

End Eventually.

Section EventuallyClaims.

Variable externalAcquire : list Event -> list string -> Z -> ExtResponse.
Variable externalRelease : list Event -> list string -> ExtResponse.
Variable other_tasks : list Event -> gset string -> gset string.

Lemma acquireEventually_enabled (fuel : nat) (config : Config) (task : Task)
    (w : World) :
  no_locking config = false ->
  acquireEventually externalAcquire other_tasks fuel config task w =
  acquireEventually_loop externalAcquire other_tasks fuel config task 50
    (loop_entry config task w).
Proof.
  intros Hn. unfold acquireEventually, loop_entry. rewrite Hn.
  destruct (verbose config); simpl; [done|].
  by rewrite app_nil_r, world_eta.
Qed.

(** C5 (amended). When locking is not globally disabled: the sleep after
    the k-th failed attempt of [acquireEventually] lasts
    min(10000, 50 * 2^(k-1)) ms, so the delays go 50, 100, 200, ...,
    never decrease and never exceed 10000; whenever [acquireEventually]
    returns it returns true, having slept exactly once after each failed
    attempt; and it returns exactly when some invocation of [acquire] in
    its loop returns true.  When locking is globally disabled it returns
    true at once, in the state it was called in, within a budget of zero
    invocations of [acquire].  Below attempts and sleeps are counted from
    0, and [fuel] bounds the number of invocations of [acquire]. *)
Theorem acquireEventually_backoff (config : Config) (task : Task) (w : World) :
  (no_locking config = false ->
  let w0 := loop_entry config task w in
  let try_at := attempt externalAcquire other_tasks config task w0 in
  (forall k, waitTime_at k = Z.min 10000 (50 * 2 ^ Z.of_nat k)) /\
  (forall k, 50 <= waitTime_at k /\ waitTime_at k <= waitTime_at (S k) /\
             waitTime_at (S k) <= 10000) /\
  (forall fuel r w',
     acquireEventually externalAcquire other_tasks fuel config task w
     = Some (r, w') ->
     r = Ret true /\
     exists n, (n < fuel)%nat /\
       (forall j, (j < n)%nat -> try_at j = Ret false) /\
       try_at n = Ret true /\
       waits (trace w') = waits (trace w) ++ map waitTime_at (seq 0 n)) /\
  (forall n fuel,
     (forall j, (j < n)%nat -> try_at j = Ret false) ->
     try_at n = Ret true -> (n < fuel)%nat ->
     exists w',
       acquireEventually externalAcquire other_tasks fuel config task w
       = Some (Ret true, w')) /\
  ((exists fuel,
      acquireEventually externalAcquire other_tasks fuel config task w <> None)
   <-> exists k, try_at k = Ret true)) /\
  (no_locking config = true ->
   forall fuel,
     acquireEventually externalAcquire other_tasks fuel config task w
     = Some (Ret true, w)).
Proof.
  split; [|intros Hn fuel; unfold acquireEventually; by rewrite Hn].
  intros Hn w0 try_at.
  assert (Hw0 : waits (trace w0) = waits (trace w)).
  { unfold w0, loop_entry. cbn [trace].
    by rewrite waits_app, waits_log_if, app_nil_r. }
  split; [exact waitTime_at_closed|]. split; [exact waitTime_at_bounds|].
  split; [|split; [|split]].
  - intros fuel r w'. rewrite (acquireEventually_enabled _ _ _ _ Hn).
    intros Hrun.
    destruct (loop_returns externalAcquire other_tasks config task w0
                fuel 0 r w' Hrun) as (n & Hlt & Hfalse & Htrue & -> & ->).
    split; [done|]. exists n. split; [done|]. split; [exact Hfalse|].
    split; [exact Htrue|]. cbn [Nat.add]. by rewrite waits_after, Hw0.
  - intros n fuel Hfalse Htrue Hlt. eexists.
    rewrite (acquireEventually_enabled _ _ _ _ Hn).
    by apply (loop_succeeds externalAcquire other_tasks config task w0 n 0 fuel).
  - intros [fuel Hsome].
    rewrite (acquireEventually_enabled _ _ _ _ Hn) in Hsome.
    destruct (acquireEventually_loop _ _ _ _ _ _ _) as [[r w']|] eqn:Hrun; [|done].
    destruct (loop_returns externalAcquire other_tasks config task w0
                fuel 0 r w' Hrun) as (n & _ & _ & Htrue & _).
    by exists n.
  - intros [k Hk].
    destruct (first_success externalAcquire other_tasks config task w0 k Hk)
      as (n & _ & Hfalse & Htrue).
    exists (S n). rewrite (acquireEventually_enabled _ _ _ _ Hn).
    pose proof (loop_succeeds externalAcquire other_tasks config task w0
                  n 0 (S n) Hfalse Htrue (Nat.lt_succ_diag_r n)) as Hrun.
    cbn [waitTime_at attempt_world] in Hrun. fold w0. by rewrite Hrun.
Qed.

(** C6. For a task with an empty resource list, and for any task when
    locking is globally disabled, [acquire] and [acquireEventually] return
    true and [release] returns normally; the lock set is unchanged, the
    external client is not called and nothing sleeps. *)
Theorem unlocked_paths (config : Config) (task : Task) (w : World) (fuel : nat) :
  resources task = [] \/ no_locking config = true ->
  acquire externalAcquire config task w = (Ret true, w) /\
  (exists w',
     acquireEventually externalAcquire other_tasks (S fuel) config task w
     = Some (Ret true, w') /\
     locks w' = locks w /\ locks_length w' = locks_length w /\
     ext_calls (trace w') = ext_calls (trace w) /\
     waits (trace w') = waits (trace w)) /\
  (exists v, release externalRelease config task w = (Ret v, w)).
Proof.
  intros Hcase. destruct (no_locking config) eqn:Hn.
  - split; [by apply acquire_disabled|]. split.
    + exists w. unfold acquireEventually. by rewrite Hn.
    + exists JsTrue. by apply release_disabled.
  - destruct Hcase as [Hnone|?]; [|done].
    split; [by apply acquire_no_resources|]. split.
    + exists (loop_entry config task w).
      rewrite (acquireEventually_enabled _ _ _ _ Hn).
      cbn [acquireEventually_loop]. rewrite acquire_no_resources by done.
      split; [done|]. split; [done|]. split; [done|]. cbn [loop_entry trace].
      by rewrite ext_calls_app, ext_calls_log_if, waits_app, waits_log_if,
           !app_nil_r.
    + exists JsUndefined. by apply release_no_resources.
Qed.

End EventuallyClaims.

Lemma acquireEventually_backoff_witness :
  exists w',
    acquireEventually grant unlock_all 2 local_only task_B (holding ["r1"])
    = Some (Ret true, w').
Proof.
  destruct (proj1 (acquireEventually_backoff grant unlock_all local_only task_B
                     (holding ["r1"])) eq_refl) as (_ & _ & _ & Hrun & _).
  apply (Hrun 1%nat 2%nat).
  - intros j Hj. assert (j = 0%nat) as -> by lia. vm_compute. reflexivity.
  - vm_compute. reflexivity.
  - lia.
Defined.

(** C5 as stated fails when locking is globally disabled: within a budget
    of zero invocations of [acquire], [acquireEventually] returns true, so
    its return is not matched by any invocation of [acquire] that returned
    true. *)
Lemma acquireEventually_disabled_skips_acquire :
  no_locking locking_off = true /\
  acquireEventually grant idle 0 locking_off task_B (holding ["r1"])
  = Some (Ret true, holding ["r1"]) /\
  ~ exists n, (n < 0)%nat /\
      attempt grant idle locking_off task_B
        (loop_entry locking_off task_B (holding ["r1"])) n = Ret true.
Proof.
  split; [reflexivity|]. split; [reflexivity|].
  intros (n & Hn & _). lia.
Qed.

Lemma unlocked_paths_witness :
  acquire grant locking_on task_none (holding ["r1"])
  = (Ret true, holding ["r1"]).
Proof.
  apply (unlocked_paths grant release_ok idle locking_on task_none
           (holding ["r1"]) 0).
  left. reflexivity.
Defined.

(** ** listConflicts *)

Lemma map_get_push_eq (r : string) (t : Task) (m : ResourceMap) :
  map_get (push_task r t m) r = Some (default [] (map_get m r) ++ [t]).
Proof.
  induction m as [|[k ts] m IH]; simpl.
  - by rewrite String.eqb_refl.
  - destruct (String.eqb k r) eqn:Hk; simpl; rewrite Hk; [done | exact IH].
Qed.

Lemma map_get_push_ne (r r' : string) (t : Task) (m : ResourceMap) :
  r' <> r -> map_get (push_task r t m) r' = map_get m r'.
Proof.
  intros Hne. induction m as [|[k ts] m IH]; simpl.
  - destruct (String.eqb_spec r r'); [congruence | done].
  - destruct (String.eqb_spec k r) as [->|Hk]; simpl.
    + destruct (String.eqb_spec r r'); [congruence | done].
    + by rewrite IH.
Qed.

Lemma keys_push (r : string) (t : Task) (m : ResourceMap) :
  map fst (push_task r t m) =
  if decide (r ∈ map fst m) then map fst m else map fst m ++ [r].
Proof.
  induction m as [|[k ts] m IH]; simpl.
  - destruct (decide (r ∈ [])) as [H|_]; [by apply elem_of_nil in H | done].
  - destruct (String.eqb_spec k r) as [->|Hk]; simpl.
    + destruct (decide (r ∈ r :: map fst m)) as [_|H]; [done|].
      exfalso. apply H. by left.
    + rewrite IH. destruct (decide (r ∈ map fst m)) as [Hin|Hin].
      * destruct (decide (r ∈ k :: map fst m)) as [_|H]; [done|].
        exfalso. apply H. by right.
      * destruct (decide (r ∈ k :: map fst m)) as [H|_]; [|done].
        apply elem_of_cons in H as [->|H]; done.
Qed.

Lemma keys_push_NoDup (r : string) (t : Task) (m : ResourceMap) :
  NoDup (map fst m) -> NoDup (map fst (push_task r t m)).
Proof.
  intros Hnd. rewrite keys_push. destruct (decide (r ∈ map fst m)); [done|].
  apply NoDup_app. split; [done|]. split; [|apply NoDup_singleton].
  intros x Hx Hin. apply list_elem_of_singleton in Hin as ->. done.
Qed.

Lemma elem_of_map_get (m : ResourceMap) (r : string) (ts : list Task) :
  NoDup (map fst m) -> (r, ts) ∈ m <-> map_get m r = Some ts.
Proof.
  induction m as [|[k ts'] m IH]; simpl; intros Hnd.
  - split; [intros H; by apply elem_of_nil in H | done].
  - apply NoDup_cons in Hnd as [Hk Hnd].
    destruct (String.eqb_spec k r) as [->|Hne].
    + split.
      * intros H. apply elem_of_cons in H as [[= ->]|H]; [done|].
        exfalso. apply Hk. apply list_elem_of_fmap. by exists (r, ts).
      * intros [= ->]. by left.
    + rewrite <- (IH Hnd). split.
      * intros H. apply elem_of_cons in H as [[= -> ->]|H]; done.
      * intros H. by right.
Qed.

Lemma tasksByResource_declarations (tasks : list Task) :
  tasksByResource tasks = fold_left push_pair (declarations tasks) [].
Proof.
  unfold tasksByResource, declarations. generalize (@nil (string * list Task)).
  induction tasks as [|t tasks IH]; intros m; [done|].
  simpl. rewrite fold_left_app, IH. f_equal.
  generalize m. induction (resources t) as [|r rs IHr]; intros m'; [done|].
  simpl. by rewrite IHr.
Qed.

Lemma fold_push_NoDup (ds : list (string * Task)) (m : ResourceMap) :
  NoDup (map fst m) -> NoDup (map fst (fold_left push_pair ds m)).
Proof.
  revert m. induction ds as [|d ds IH]; intros m Hnd; [done|].
  simpl. apply IH. by apply keys_push_NoDup.
Qed.

Lemma occurrences_cons (r : string) (d : string * Task) (ds : list (string * Task)) :
  occurrences r (d :: ds) =
  if String.eqb (fst d) r then snd d :: occurrences r ds else occurrences r ds.
Proof. unfold occurrences. simpl. by destruct (String.eqb (fst d) r). Qed.

Lemma map_get_fold_push (ds : list (string * Task)) (m : ResourceMap) (r : string) :
  map_get (fold_left push_pair ds m) r =
  match occurrences r ds with
  | [] => map_get m r
  | ts => Some (default [] (map_get m r) ++ ts)
  end.
Proof.
  revert m. induction ds as [|[r' t] ds IH]; intros m; [done|].
  simpl. rewrite IH, occurrences_cons. unfold push_pair. simpl.
  destruct (String.eqb_spec r' r) as [->|Hne].
  - rewrite map_get_push_eq.
    destruct (occurrences r ds); simpl; [done|]. by rewrite <- app_assoc.
  - rewrite map_get_push_ne by done. done.
Qed.

Lemma elem_of_tasksByResource (tasks : list Task) (r : string) (ts : list Task) :
  (r, ts) ∈ tasksByResource tasks <->
  ts = occurrences r (declarations tasks) /\ ts <> [].
Proof.
  rewrite tasksByResource_declarations.
  rewrite elem_of_map_get by (apply fold_push_NoDup; constructor).
  rewrite map_get_fold_push. simpl.
  destruct (occurrences r (declarations tasks)) as [|t l].
  - split; [done | intros [-> ?]; done].
  - split; [intros [= <-]; done | intros [-> _]; done].
Qed.

Lemma tasksByResource_NoDup (tasks : list Task) :
  NoDup (map fst (tasksByResource tasks)).
Proof. rewrite tasksByResource_declarations. apply fold_push_NoDup. constructor. Qed.

(** Without repeated names in a task's list, the visits for [r] are the
    tasks that declare [r], in batch order. *)
Lemma occurrences_claiming (r : string) (tasks : list Task) :
  Forall (fun t => NoDup (resources t)) tasks ->
  occurrences r (declarations tasks) = claiming r tasks.
Proof.
  assert (Happ : forall a b, occurrences r (a ++ b) = occurrences r a ++ occurrences r b).
  { intros a b. unfold occurrences. by rewrite List.filter_app, map_app. }
  assert (Hone : forall t rs, NoDup rs ->
    occurrences r (map (fun x => (x, t)) rs) = if bool_decide (r ∈ rs) then [t] else []).
  { intros t rs. induction rs as [|x rs IH]; intros Hnd; [done|].
    apply NoDup_cons in Hnd as [Hx Hnd]. simpl. rewrite occurrences_cons. simpl.
    rewrite (IH Hnd). destruct (String.eqb_spec x r) as [->|Hne].
    - rewrite (bool_decide_eq_true_2 (r ∈ r :: rs)) by (by left).
      by rewrite (bool_decide_eq_false_2 (r ∈ rs)).
    - destruct (bool_decide (r ∈ rs)) eqn:Hr.
      + apply bool_decide_eq_true in Hr.
        by rewrite (bool_decide_eq_true_2 (r ∈ x :: rs)) by (by right).
      + apply bool_decide_eq_false in Hr.
        rewrite (bool_decide_eq_false_2 (r ∈ x :: rs)); [done|].
        intros H. apply elem_of_cons in H as [->|H]; done. }
  induction 1 as [|t tasks Ht _ IH]; [done|].
  unfold declarations, claiming in *. simpl. rewrite Happ, IH, (Hone _ _ Ht).
  by destruct (bool_decide (r ∈ resources t)).
Qed.

Lemma report_conflicts_run (m : ResourceMap) (b : bool) (w : World) :
  report_conflicts m b w =
  (Ret (b || existsb is_conflict m),
   {| locks := locks w; locks_length := locks_length w;
      trace := trace w ++ conflict_lines (List.filter is_conflict m) |}).
Proof.
  revert b w. induction m as [|[r ts] m IH]; intros b w.
  - simpl. unfold conflict_lines. simpl.
    by rewrite orb_false_r, app_nil_r, world_eta.
  - cbn [report_conflicts List.filter existsb]. unfold is_conflict at 1 3. cbn [snd].
    destruct (length ts =? 1)%nat; cbn [negb].
    + by rewrite IH.
    + rewrite run_bind. cbn [Js.emit]. rewrite IH. cbn [locks locks_length trace].
      rewrite orb_true_r. simpl. by rewrite <- app_assoc.
Qed.

Lemma existsb_filter_nil {A} (f : A -> bool) (l : list A) :
  existsb f l = match List.filter f l with [] => false | _ => true end.
Proof. induction l as [|x l IH]; [done|]. simpl. by destruct (f x). Qed.

Lemma listConflicts_run (config : Config) (tasks : list Task) (w : World) :
  listConflicts config tasks w =
  (Ret tt,
   {| locks := locks w; locks_length := locks_length w;
      trace := trace w ++
        match conflicts tasks with
        | [] => [Log [PStr "No resource conflicts found"]]
        | cs => conflict_lines cs
        end |}).
Proof.
  unfold listConflicts, conflicts. rewrite run_bind, report_conflicts_run.
  rewrite existsb_filter_nil. simpl.
  destruct (List.filter is_conflict (tasksByResource tasks)) as [|c cs].
  - unfold conflict_lines, Js.when, Js.emit. cbn. by rewrite app_nil_r.
  - reflexivity.
Qed.

Lemma elem_of_conflicts (tasks : list Task) (r : string) (ts : list Task) :
  (r, ts) ∈ conflicts tasks <->
  ts = occurrences r (declarations tasks) /\ (2 <= length ts)%nat.
Proof.
  unfold conflicts. rewrite list_elem_of_In, List.filter_In, <- list_elem_of_In.
  rewrite elem_of_tasksByResource. unfold is_conflict. simpl.
  rewrite negb_true_iff, Nat.eqb_neq.
  split.
  - intros [[-> Hne] Hlen]. split; [done|].
    destruct (occurrences r (declarations tasks)); simpl in *; [done | lia].
  - intros [-> Hlen]. split; [split; [done|] | lia].
    intros Heq. rewrite Heq in Hlen. simpl in Hlen. lia.
Qed.

(** C9 (amended). For every batch of tasks none of which lists a resource
    name twice, [listConflicts] logs one line for each resource declared by
    more than one task, with the ids of the tasks that declare it in batch
    order, and no line for any other resource; when there is no such
    resource it logs that no conflicts were found.  Nothing but the log
    changes.  Over A:[r1], B:[r1], C:[r2] the only line is the one for r1,
    naming A and B. *)
Theorem listConflicts_reports (config : Config) (tasks : list Task) (w : World) :
  Forall (fun t => NoDup (resources t)) tasks ->
  let res := listConflicts config tasks w in
  fst res = Ret tt /\
  locks (snd res) = locks w /\ locks_length (snd res) = locks_length w /\
  trace (snd res) =
    trace w ++
    match conflicts tasks with
    | [] => [Log [PStr "No resource conflicts found"]]
    | cs => map (fun e => Log [PStr (fst e); PStr ": ";
                               PStr (join " " (map id (snd e)))]) cs
    end /\
  NoDup (map fst (conflicts tasks)) /\
  (forall r ts,
     (r, ts) ∈ conflicts tasks <->
     ts = claiming r tasks /\ (2 <= length ts)%nat) /\
  trace (snd (listConflicts config [task_A; task_B; task_C] fresh))
  = [Log [PStr "r1"; PStr ": "; PStr "A B"]].
Proof.
  intros Hnd res. subst res. rewrite !listConflicts_run. cbn [fst snd locks locks_length trace].
  split; [done|]. split; [done|]. split; [done|]. split; [done|].
  split; [|split; [|reflexivity]].
  - unfold conflicts. apply NoDup_fmap_fst.
    + intros r ts1 ts2 H1 H2.
      apply list_elem_of_In, List.filter_In in H1 as [H1 _].
      apply list_elem_of_In, List.filter_In in H2 as [H2 _].
      apply list_elem_of_In, elem_of_tasksByResource in H1 as [-> _].
      by apply list_elem_of_In, elem_of_tasksByResource in H2 as [-> _].
    + apply NoDup_ListNoDup, List.NoDup_filter, NoDup_ListNoDup.
      eapply NoDup_fmap_1. apply tasksByResource_NoDup.
  - intros r ts. by rewrite elem_of_conflicts, occurrences_claiming.
Qed.

Lemma listConflicts_reports_witness :
  trace (snd (listConflicts locking_on [task_A; task_B; task_C] fresh))
  = [Log [PStr "r1"; PStr ": "; PStr "A B"]].
Proof.
  apply (listConflicts_reports locking_on [task_A; task_B; task_C] fresh).
  compute_done.
Defined.

(** C9 as stated fails: a single task that lists [r1] twice is reported as
    a conflict on [r1], although only one task declares [r1]. *)
Lemma listConflicts_reports_single_task :
  trace (snd (listConflicts locking_on [task_twice] fresh))
  = [Log [PStr "r1"; PStr ": "; PStr "A A"]] /\
  claiming "r1" [task_twice] = [task_twice].
Proof. split; reflexivity. Qed.

(** ** Runs on sample inputs *)

Example backoff_three_sleeps :
  option_map (fun r => (fst r, waits (trace (snd r))))
    (acquireEventually grant (unlock_after 2) 10 local_only task_B
       (holding ["r1"]))
  = Some (Ret true, [50; 100; 200]).
Proof. vm_compute. reflexivity. Qed.

Example backoff_reaches_cap :
  option_map (fun r => (fst r, waits (trace (snd r))))
    (acquireEventually grant (unlock_after 9) 20 local_only task_B
       (holding ["r1"]))
  = Some (Ret true,
          [50; 100; 200; 400; 800; 1600; 3200; 6400; 10000; 10000]).
Proof. vm_compute. reflexivity. Qed.

Example backoff_out_of_fuel :
  acquireEventually grant idle 5 local_only task_B (holding ["r1"]) = None.
Proof. vm_compute. reflexivity. Qed.

Example validate_rejects_space :
  fst (annotateTaskResources locking_on
         {| id := "T"; resources := ["ok-1"; "not ok"] |} fresh)
  = Throw (AssertionError
             [PStr "Invalid resource name in task "; PStr "T"; PStr ": ";
              PJson "not ok"]).
Proof. vm_compute. reflexivity. Qed.

Example acquire_transport_error :
  acquire (fun _ _ _ => ExtError "ECONNREFUSED") locking_on task_A fresh
  = (Ret false,
     {| locks := ∅; locks_length := None;
        trace := [ExtAcquire ["r1"] 40000;
                  Color "red" (lockserver_msg task_A "ECONNREFUSED")] |}).
Proof. reflexivity. Qed.

Example shutdown_leaves_set_alone :
  snd (shutdown locking_on (holding ["r1"]))
  = {| locks := {["r1"]}; locks_length := Some 0; trace := [ExtShutdown] |}.
Proof. vm_compute. reflexivity. Qed.

(** * Further properties of the locking functions *)

Section LockingLaws.

Variable externalAcquire : list Event -> list string -> Z -> ExtResponse.
Variable externalRelease : list Event -> list string -> ExtResponse.

(** X1. [acquire] never throws, whatever the lock server answers.  It only
    ever adds to the lock set: nothing when it answers false, and (with
    locking enabled) exactly the declared names when it answers true; the
    membership of names the task does not declare never changes. *)
Theorem acquire_never_throws (config : Config) (task : Task) (w : World) :
  exists b,
    fst (acquire externalAcquire config task w) = Ret b /\
    locks w ⊆ locks (snd (acquire externalAcquire config task w)) /\
    (b = false -> locks (snd (acquire externalAcquire config task w)) = locks w) /\
    (b = true -> no_locking config = false ->
     locks (snd (acquire externalAcquire config task w))
     = names (resources task) ∪ locks w) /\
    (forall r, r ∉ resources task ->
       r ∈ locks (snd (acquire externalAcquire config task w)) <-> r ∈ locks w).
Proof.
  destruct (acquire_shape externalAcquire config task w)
    as (b & w' & Hrun & Hsub & Hfalse & Htrue & _).
  exists b. rewrite Hrun. cbn [fst snd].
  split; [done|]. split; [done|]. split; [done|]. split; [done|].
  intros r Hr. split; [|by apply Hsub].
  destruct b.
  - destruct (no_locking config) eqn:Hn.
    + rewrite acquire_disabled in Hrun by done. by injection Hrun as <-.
    + rewrite Htrue by done. intros Hin.
      apply elem_of_union in Hin as [Hin|Hin]; [|done].
      by apply elem_of_names in Hin.
  - by rewrite Hfalse.
Qed.

(** X2. [release] only ever removes, and only names the task declares:
    whether it returns or raises the fatal failure, the lock set afterwards
    lies between the old set minus the declared names and the old set. *)
Theorem release_only_removes_declared (config : Config) (task : Task) (w : World) :
  locks w ∖ names (resources task)
    ⊆ locks (snd (release externalRelease config task w)) /\
  locks (snd (release externalRelease config task w)) ⊆ locks w.
Proof.
  destruct (no_locking config) eqn:Hn.
  { rewrite release_disabled by done. cbn [snd]. split; [|done].
    intros x Hx. by apply elem_of_difference in Hx as [? _]. }
  destruct (resources task) as [|r0 rs0] eqn:Hres.
  { rewrite release_no_resources by done. cbn [snd]. split; [|done].
    intros x Hx. by apply elem_of_difference in Hx as [? _]. }
  assert (Hne : resources task <> []) by (by rewrite Hres).
  rewrite <- Hres. rewrite (release_enabled _ _ _ _ Hn Hne).
  pose proof (after_external_release_locks externalRelease config task w) as Hl.
  destruct (release_loop_spec task (resources task)
              (after_external_release externalRelease config task w))
    as [(_ & _ & ->) | (pre & x & post & Heq & _ & _ & _ & ->)];
    cbn [snd locks Js.set_locks]; rewrite Hl.
  - split; [done|]. intros y Hy. by apply elem_of_difference in Hy as [? _].
  - split.
    + intros y Hy. apply elem_of_difference in Hy as [Hy Hn'].
      apply elem_of_difference. split; [done|]. intros Hin. apply Hn'.
      apply elem_of_names. apply elem_of_names in Hin. rewrite Heq.
      apply elem_of_app. by left.
    + intros y Hy. by apply elem_of_difference in Hy as [? _].
Qed.

(** If [acquire] answered true with locking enabled, none of the declared
    names was held before. *)
Lemma acquire_true_was_free (config : Config) (task : Task) (w : World) :
  no_locking config = false ->
  fst (acquire externalAcquire config task w) = Ret true ->
  forall r, r ∈ resources task -> r ∉ locks w.
Proof.
  intros Hn Hacq. destruct (resources task) as [|r0 rs0] eqn:Hres.
  { intros r Hr. by apply elem_of_nil in Hr. }
  assert (Hne : resources task <> []) by (by rewrite Hres).
  rewrite <- Hres in *. rewrite (acquire_enabled _ _ _ _ Hn Hne) in Hacq.
  destruct (existsb (has (locks w)) (resources task)) eqn:Hex; [done|].
  by apply existsb_has_false.
Qed.

(** A successful [acquire] followed by the matching [release], for a
    resource list without repeated names. *)
Lemma release_after_acquire (config : Config) (task : Task) (w : World) :
  NoDup (resources task) ->
  fst (acquire externalAcquire config task w) = Ret true ->
  exists v w2,
    release externalRelease config task
      (snd (acquire externalAcquire config task w)) = (Ret v, w2) /\
    locks w2 = locks w.
Proof.
  intros Hnd Hacq.
  destruct (no_locking config) eqn:Hn.
  { rewrite acquire_disabled, release_disabled by done. cbn [fst snd]. eauto. }
  destruct (resources task) as [|r0 rs0] eqn:Hres.
  { rewrite acquire_no_resources, release_no_resources by done. cbn [fst snd]. eauto. }
  assert (Hne : resources task <> []) by (by rewrite Hres).
  rewrite <- Hres in *.
  pose proof (acquire_true_was_free config task w Hn Hacq) as Hfree.
  destruct (acquire_shape externalAcquire config task w)
    as (b & w1 & Hrun & _ & _ & Htrue & _).
  rewrite Hrun in Hacq |- *. cbn [fst snd] in *. injection Hacq as ->.
  specialize (Htrue eq_refl Hn).
  rewrite (release_enabled _ _ _ _ Hn Hne).
  pose proof (after_external_release_locks externalRelease config task w1) as Hl.
  destruct (release_loop_spec task (resources task)
              (after_external_release externalRelease config task w1))
    as [(_ & _ & ->) | (pre & x & post & Heq & _ & _ & Hbad & _)].
  - cbn [Js.set_locks]. eexists _, _. split; [done|]. cbn [locks].
    rewrite Hl, Htrue.
    apply set_eq. intros y. rewrite elem_of_difference, elem_of_union, elem_of_names.
    split; [intros [[?|?] ?]; done|]. intros Hy. split; [by right|].
    intros Hin. by apply (Hfree y).
  - exfalso. rewrite Hl, Htrue in Hbad. destruct Hbad as [Hbad|Hbad].
    + apply Hbad. apply elem_of_union. left. apply elem_of_names.
      rewrite Heq. apply elem_of_split.
    + rewrite Heq in Hnd. apply NoDup_app in Hnd as (_ & Hdisj & _).
      apply (Hdisj x Hbad). by left.
Qed.

(** X3. Round trip: when [acquire] has answered true for a task whose
    resource list has no repeated name, the matching [release] returns
    normally and the lock set is exactly what it was before the [acquire]. *)
Theorem acquire_release_round_trip (config : Config) (task : Task) (w : World) :
  NoDup (resources task) ->
  fst (acquire externalAcquire config task w) = Ret true ->
  returns (release externalRelease config task
             (snd (acquire externalAcquire config task w))) /\
  locks (snd (release externalRelease config task
                (snd (acquire externalAcquire config task w)))) = locks w.
Proof.
  intros Hnd Hacq.
  destruct (release_after_acquire config task w Hnd Hacq) as (v & w2 & -> & Hl).
  split; [by exists v | exact Hl].
Qed.

(** X4. Double release: after a successful [acquire] and its [release],
    a second [release] for the same task (locking enabled, at least one
    resource, no repeated name) raises the fatal failure at the first
    declared name and leaves the lock set untouched. *)
Theorem double_release_fails (config : Config) (task : Task) (w : World)
    (r0 : string) (rest : list string) :
  no_locking config = false ->
  resources task = r0 :: rest ->
  NoDup (resources task) ->
  fst (acquire externalAcquire config task w) = Ret true ->
  let w2 := snd (release externalRelease config task
                   (snd (acquire externalAcquire config task w))) in
  fst (release externalRelease config task w2)
  = Throw (AssertionError (not_held_msg task r0 (locks w))) /\
  locks (snd (release externalRelease config task w2)) = locks w.
Proof.
  intros Hn Hres Hnd Hacq w2.
  assert (Hne : resources task <> []) by (by rewrite Hres).
  destruct (release_after_acquire config task w Hnd Hacq) as (v & w2' & Hrel & Hl2).
  assert (Hw2 : locks w2 = locks w) by (subst w2; by rewrite Hrel).
  assert (Hfree : r0 ∉ locks w).
  { apply (acquire_true_was_free config task w Hn Hacq). rewrite Hres. by left. }
  rewrite (release_enabled _ _ _ _ Hn Hne).
  pose proof (after_external_release_locks externalRelease config task w2) as Hl.
  assert (Hloop :
    Js.for_of (resources task) (release_one task)
      (after_external_release externalRelease config task w2)
    = (Throw (AssertionError (not_held_msg task r0 (locks w))),
       after_external_release externalRelease config task w2)).
  { rewrite Hres. apply for_of_cons_throw.
    rewrite release_one_run, Hl, Hw2. unfold has.
    by rewrite bool_decide_eq_false_2. }
  rewrite Hloop. cbn [fst snd]. by rewrite Hl, Hw2.
Qed.

End LockingLaws.

Section LockingLaws2.

Variable externalAcquire : list Event -> list string -> Z -> ExtResponse.
Variable externalRelease : list Event -> list string -> ExtResponse.
Variable other_tasks : list Event -> gset string -> gset string.

(** With locking enabled, free resources and a lock server that is either
    switched off or grants the request, [acquire] answers true and adds the
    declared names. *)
Lemma acquire_free_granted (config : Config) (task : Task) (w : World) :
  no_locking config = false ->
  (no_external_locking config = true \/
   forall tr rs, externalAcquire tr rs 40000 = ExtTrue) ->
  (forall r, r ∈ resources task -> r ∉ locks w) ->
  fst (acquire externalAcquire config task w) = Ret true /\
  locks (snd (acquire externalAcquire config task w))
  = names (resources task) ∪ locks w.
Proof.
  intros Hn Hext Hfree.
  destruct (resources task) as [|r0 rs0] eqn:Hres.
  { rewrite acquire_no_resources by done. cbn [fst snd]. split; [done|].
    unfold names. cbn. by rewrite (left_id_L ∅ (∪)). }
  assert (Hne : resources task <> []) by (by rewrite Hres).
  rewrite <- Hres in *. rewrite (acquire_enabled _ _ _ _ Hn Hne).
  apply existsb_has_false in Hfree. rewrite Hfree.
  destruct (no_external_locking config) eqn:He.
  - by rewrite acquire_add_run.
  - destruct Hext as [? | Hgrant]; [done|]. cbv zeta.
    by rewrite Hgrant, acquire_add_run.
Qed.

(** X5. Two tasks with disjoint resource lists, all of them free, under a
    lock server that is switched off or grants every request: both
    [acquire] calls answer true in either order, and both orders end with
    the same lock set, the old one plus the names of both tasks. *)
Theorem disjoint_tasks_both_acquire (config : Config) (A B : Task) (w : World) :
  no_locking config = false ->
  (no_external_locking config = true \/
   forall tr rs, externalAcquire tr rs 40000 = ExtTrue) ->
  (forall r, r ∈ resources A -> r ∉ locks w) ->
  (forall r, r ∈ resources B -> r ∉ locks w) ->
  (forall r, r ∈ resources A -> r ∉ resources B) ->
  let wA := snd (acquire externalAcquire config A w) in
  let wB := snd (acquire externalAcquire config B w) in
  fst (acquire externalAcquire config A w) = Ret true /\
  fst (acquire externalAcquire config B wA) = Ret true /\
  fst (acquire externalAcquire config B w) = Ret true /\
  fst (acquire externalAcquire config A wB) = Ret true /\
  locks (snd (acquire externalAcquire config B wA))
  = names (resources A) ∪ names (resources B) ∪ locks w /\
  locks (snd (acquire externalAcquire config A wB))
  = names (resources A) ∪ names (resources B) ∪ locks w.
Proof.
  intros Hn Hext HA HB Hdisj wA wB.
  destruct (acquire_free_granted config A w Hn Hext HA) as [HrA HlA].
  destruct (acquire_free_granted config B w Hn Hext HB) as [HrB HlB].
  fold wA in HlA. fold wB in HlB.
  assert (HB' : forall r, r ∈ resources B -> r ∉ locks wA).
  { intros r Hr. rewrite HlA. intros Hin.
    apply elem_of_union in Hin as [Hin|Hin]; [|by apply (HB r)].
    apply elem_of_names in Hin. by apply (Hdisj r). }
  assert (HA' : forall r, r ∈ resources A -> r ∉ locks wB).
  { intros r Hr. rewrite HlB. intros Hin.
    apply elem_of_union in Hin as [Hin|Hin]; [|by apply (HA r)].
    apply elem_of_names in Hin. by apply (Hdisj r). }
  destruct (acquire_free_granted config B wA Hn Hext HB') as [HrBA HlBA].
  destruct (acquire_free_granted config A wB Hn Hext HA') as [HrAB HlAB].
  split; [done|]. split; [done|]. split; [done|]. split; [done|].
  rewrite HlBA, HlAB, HlA, HlB. split.
  - rewrite (assoc_L (∪)). f_equal. apply (comm_L (∪)).
  - by rewrite (assoc_L (∪)).
Qed.

(** X6. [init] starts from an empty lock set whatever was held before, so
    a [shutdown] right after [init] completes normally; the two calls reach
    the external client in that order. *)
Theorem init_then_shutdown (config config' : Config) (w : World) :
  locks (snd (init config w)) = ∅ /\
  fst (init config w) = Ret tt /\
  shutdown config' (snd (init config w))
  = (Ret tt, {| locks := ∅; locks_length := Some 0;
                trace := trace w ++ [ExtInit; ExtShutdown] |}).
Proof.
  split; [done|]. split; [done|].
  rewrite shutdown_run. cbn. rewrite size_empty. cbn.
  by rewrite <- app_assoc.
Qed.

(** X7. A [release] whose first declared name is not held (locking
    enabled) raises the fatal failure for that name and leaves the lock
    set as it was; unless external locking is disabled, the release call
    to the lock server has been made before the local check. *)
Theorem release_not_held_fails (config : Config) (task : Task) (w : World)
    (r0 : string) (rest : list string) :
  no_locking config = false ->
  resources task = r0 :: rest ->
  r0 ∉ locks w ->
  let res := release externalRelease config task w in
  fst res = Throw (AssertionError (not_held_msg task r0 (locks w))) /\
  locks (snd res) = locks w /\
  ext_calls (trace (snd res))
  = ext_calls (trace w) ++
    (if no_external_locking config then [] else [ExtRelease (resources task)]).
Proof.
  intros Hn Hres Hfree res. subst res.
  assert (Hne : resources task <> []) by (by rewrite Hres).
  rewrite (release_enabled _ _ _ _ Hn Hne).
  pose proof (after_external_release_locks externalRelease config task w) as Hl.
  assert (Hloop :
    Js.for_of (resources task) (release_one task)
      (after_external_release externalRelease config task w)
    = (Throw (AssertionError (not_held_msg task r0 (locks w))),
       after_external_release externalRelease config task w)).
  { rewrite Hres. apply for_of_cons_throw.
    rewrite release_one_run, Hl. unfold has.
    by rewrite bool_decide_eq_false_2. }
  rewrite Hloop. cbn [fst snd]. split; [done|]. split; [done|].
  unfold after_external_release.
  destruct (no_external_locking config); [by rewrite app_nil_r|].
  cbn [trace]. rewrite ext_calls_app. f_equal. cbn.
  destruct (externalRelease (trace w) (resources task)); cbn; try done.
  by rewrite ext_calls_log_if.
Qed.



(** Every pass through the loop fails, so the loop is never left. *)
Lemma loop_never_returns (config : Config) (task : Task) (P : World -> Prop) :
  (forall w, P w ->
     exists w1, acquire externalAcquire config task w = (Ret false, w1) /\
       forall ms, P (snd (wait other_tasks ms w1))) ->
  forall fuel waitTime w, P w ->
    acquireEventually_loop externalAcquire other_tasks fuel config task waitTime w
    = None.
Proof.
  intros Hstep. induction fuel as [|fuel IH]; intros waitTime w Hw; [done|].
  cbn [acquireEventually_loop].
  destruct (Hstep w Hw) as (w1 & -> & Hnext).
  specialize (Hnext waitTime). unfold wait in *. cbn [snd] in Hnext.
  by apply IH.
Qed.

(** X9. While a declared resource stays in the lock set -- the other tasks
    never give it back -- [acquireEventually] (locking enabled) does not
    return, however many attempts it is allowed: it retries without bound. *)
Theorem acquireEventually_blocked_forever (config : Config) (task : Task)
    (w : World) (r : string) (fuel : nat) :
  no_locking config = false ->
  r ∈ resources task -> r ∈ locks w ->
  (forall tr s, r ∈ s -> r ∈ other_tasks tr s) ->
  acquireEventually externalAcquire other_tasks fuel config task w = None.
Proof.
  intros Hn Hr Hheld Hkeep.
  rewrite (acquireEventually_enabled _ _ _ _ _ _ Hn).
  apply (loop_never_returns config task (fun w => r ∈ locks w)); [|done].
  intros w0 Hw0.
  assert (Hne : resources task <> []).
  { intros Heq. rewrite Heq in Hr. by apply elem_of_nil in Hr. }
  rewrite (acquire_enabled _ _ _ _ Hn Hne).
  assert (Hex : existsb (has (locks w0)) (resources task) = true)
    by (apply existsb_has; eauto).
  rewrite Hex. eexists. split; [done|]. intros ms. cbn. by apply Hkeep.
Qed.

(** X10. While the lock server cannot be reached -- every lease request
    ends in a transport error -- [acquireEventually] (locking and external
    locking enabled, at least one resource) neither returns nor throws,
    however many attempts it is allowed. *)
Theorem acquireEventually_unreachable_forever (config : Config) (task : Task)
    (w : World) (fuel : nat) :
  no_locking config = false -> no_external_locking config = false ->
  resources task <> [] ->
  (forall tr, exists stack,
      externalAcquire tr (resources task) 40000 = ExtError stack) ->
  acquireEventually externalAcquire other_tasks fuel config task w = None.
Proof.
  intros Hn He Hne Herr.
  rewrite (acquireEventually_enabled _ _ _ _ _ _ Hn).
  apply (loop_never_returns config task (fun _ => True)); [|done].
  intros w0 _. rewrite (acquire_enabled _ _ _ _ Hn Hne), He.
  destruct (existsb (has (locks w0)) (resources task)).
  - eexists. by split.
  - cbv zeta. destruct (Herr (trace w0)) as [stack ->]. eexists. by split.
Qed.

End LockingLaws2.

(** X11. Whatever the batch, [listConflicts] reports a resource exactly
    when it is declared at least twice, counting every occurrence in every
    resource list (so also twice by one task), with one task per
    declaration in visiting order; what it logs is one line per reported
    resource, "<resource>: <ids separated by blanks>", each resource once,
    or, when there is none, the single line "No resource conflicts found",
    which therefore appears exactly when every resource is declared at most
    once; it never throws and never touches the lock state. *)
Theorem listConflicts_counts_declarations
    (config : Config) (tasks : list Task) (w : World) :
  fst (listConflicts config tasks w) = Ret tt /\
  locks (snd (listConflicts config tasks w)) = locks w /\
  trace (snd (listConflicts config tasks w))
  = trace w ++
    match conflicts tasks with
    | [] => [Log [PStr "No resource conflicts found"]]
    | cs => map (fun e => Log [PStr (fst e); PStr ": ";
                               PStr (join " " (map id (snd e)))]) cs
    end /\
  NoDup (map fst (conflicts tasks)) /\
  (forall r ts,
     (r, ts) ∈ conflicts tasks <->
     ts = occurrences r (declarations tasks) /\ (2 <= length ts)%nat) /\
  (trace (snd (listConflicts config tasks w))
   = trace w ++ [Log [PStr "No resource conflicts found"]]
   <-> forall r, (length (occurrences r (declarations tasks)) <= 1)%nat).
Proof.
  rewrite listConflicts_run. cbn [fst snd locks trace].
  split; [done|]. split; [done|]. split; [done|].
  split.
  { unfold conflicts. apply NoDup_fmap_fst.
    - intros r ts1 ts2 H1 H2.
      apply list_elem_of_In, List.filter_In in H1 as [H1 _].
      apply list_elem_of_In, List.filter_In in H2 as [H2 _].
      apply list_elem_of_In, elem_of_tasksByResource in H1 as [-> _].
      by apply list_elem_of_In, elem_of_tasksByResource in H2 as [-> _].
    - apply NoDup_ListNoDup, List.NoDup_filter, NoDup_ListNoDup.
      eapply NoDup_fmap_1. apply tasksByResource_NoDup. }
  split; [apply elem_of_conflicts|].
  split.
  - intros Htr r.
    destruct (le_lt_dec (length (occurrences r (declarations tasks))) 1)
      as [|Hlt]; [done|]. exfalso.
    assert (Hin : (r, occurrences r (declarations tasks)) ∈ conflicts tasks)
      by (apply elem_of_conflicts; split; [done | lia]).
    apply app_inv_head in Htr.
    destruct (conflicts tasks) as [|c cs]; [by apply elem_of_nil in Hin|].
    discriminate Htr.
  - intros Hall. destruct (conflicts tasks) as [|[r ts] cs] eqn:Hc; [done|].
    exfalso.
    assert (Hin : (r, ts) ∈ conflicts tasks) by (rewrite Hc; by left).
    apply elem_of_conflicts in Hin as [-> Hlen]. specialize (Hall r). lia.
Qed.

Lemma acquire_release_round_trip_witness :
  locks (snd (release release_ok local_only task_ab
                (snd (acquire grant local_only task_ab (holding ["r1"])))))
  = locks (holding ["r1"]).
Proof.
  apply (acquire_release_round_trip grant release_ok local_only task_ab
           (holding ["r1"])).
  - compute_done.
  - vm_compute. reflexivity.
Defined.

Lemma double_release_fails_witness :
  fst (release release_ok local_only task_ab
         (snd (release release_ok local_only task_ab
                 (snd (acquire grant local_only task_ab fresh)))))
  = Throw (AssertionError (not_held_msg task_ab "a" (locks fresh))).
Proof.
  apply (double_release_fails grant release_ok local_only task_ab fresh
           "a" ["b"]).
  - reflexivity.
  - reflexivity.
  - compute_done.
  - vm_compute. reflexivity.
Defined.

Lemma disjoint_tasks_both_acquire_witness :
  fst (acquire grant locking_on task_C
         (snd (acquire grant locking_on task_A fresh))) = Ret true.
Proof.
  refine (proj1 (proj2 (disjoint_tasks_both_acquire grant locking_on
                          task_A task_C fresh _ _ _ _ _))).
  - reflexivity.
  - right. reflexivity.
  - apply Forall_forall. compute_done.
  - apply Forall_forall. compute_done.
  - apply Forall_forall. compute_done.
Defined.

Lemma release_not_held_fails_witness :
  ext_calls (trace (snd (release release_ok locking_on task_ab fresh)))
  = [ExtRelease ["a"; "b"]].
Proof.
  refine (proj2 (proj2 (release_not_held_fails release_ok locking_on task_ab
                          fresh "a" ["b"] _ _ _))).
  - reflexivity.
  - reflexivity.
  - compute_done.
Defined.


Lemma acquireEventually_blocked_forever_witness :
  acquireEventually grant idle 25 local_only task_B (holding ["r1"]) = None.
Proof.
  apply (acquireEventually_blocked_forever grant idle local_only task_B
           (holding ["r1"]) "r1" 25).
  - reflexivity.
  - compute_done.
  - compute_done.
  - intros tr s Hs. exact Hs.
Defined.

Lemma acquireEventually_unreachable_forever_witness :
  acquireEventually (fun _ _ _ => ExtError "ECONNREFUSED") unlock_all 25
    locking_on task_B fresh = None.
Proof.
  apply (acquireEventually_unreachable_forever
           (fun _ _ _ => ExtError "ECONNREFUSED") unlock_all
           locking_on task_B fresh 25).
  - reflexivity.
  - reflexivity.
  - discriminate.
  - intros tr. by exists "ECONNREFUSED".
Defined.

(** * The node launcher: loadSuite *)

(** ** Decimal numerals contain no underscore *)

Lemma pretty_N_go_no_underscore (x : N) (s : string) :
  occurs "_" s = false -> occurs "_" (pretty_N_go x s) = false.
Proof.
  revert s. induction (N.lt_wf_0 x) as [x _ IH]; intros s Hs.
  assert (x = 0 \/ 0 < x)%N as [->|Hx] by lia.
  - by rewrite pretty_N_go_0.
  - rewrite pretty_N_go_step by done. apply IH; [by apply N.div_lt|].
    cbn [occurs]. rewrite Hs, orb_false_r.
    unfold pretty_N_char. by repeat case_match.
Qed.

Lemma pretty_nat_no_underscore (n : nat) : occurs "_" (pretty n) = false.
Proof.
  unfold pretty, pretty_nat, pretty, pretty_N. case_decide; [done|].
  by apply pretty_N_go_no_underscore.
Qed.

Lemma occurs_app (c : ascii) (a b : string) :
  occurs c (a +:+ b) = occurs c a || occurs c b.
Proof.
  induction a as [|d a IH]; [done|].
  change (String d a +:+ b) with (String d (a +:+ b)). cbn [occurs].
  by rewrite IH, orb_assoc.
Qed.

(** The part after the last underscore of a name is determined by the name. *)
Lemma underscore_suffix_inj (a b d1 d2 : string) :
  occurs "_" d1 = false -> occurs "_" d2 = false ->
  a +:+ "_" +:+ d1 = b +:+ "_" +:+ d2 -> d1 = d2.
Proof.
  intros H1 H2. revert b.
  induction a as [|c a IH]; intros [|c' b];
    cbv [String.append]; fold String.append.
  - by intros [= ->].
  - intros [= <- ->]. rewrite occurs_app in H1.
    change ("_" +:+ d2) with (String "_" d2) in H1. cbn in H1.
    by rewrite orb_true_r in H1.
  - intros [= -> <-]. rewrite occurs_app in H2.
    change ("_" +:+ d1) with (String "_" d1) in H2. cbn in H2.
    by rewrite orb_true_r in H2.
  - intros [= -> Heq]. exact (IH _ Heq).
Qed.

Lemma indexed_inj (c : gmap string Suite.JsVal) (n m : nat) :
  Suite.indexed c n -> Suite.indexed c m -> n = m.
Proof.
  intros [g Hg] [h Hh]. rewrite Hg in Hh. injection Hh as Heq.
  apply underscore_suffix_inj in Heq; try apply pretty_nat_no_underscore.
  by apply (inj pretty).
Qed.

(** ** The state after a builder has run *)

Section SuiteRuns.

Variable fileName : string.

Lemma length_test_calls (path : list string) (b : Suite.Script) :
  length (Suite.test_calls path b) = Suite.count_tests b.
Proof.
  revert path. induction b as [|k d r o rest IH|k d cb IHcb rest IHrest];
    intros path; cbn; [done | by rewrite IH |].
  by rewrite length_app, IHcb, IHrest.
Qed.

(** X12. Every [test], [test.only] or [test.skip] call registers exactly
    one case (in [tests] or in [only], never removing or reordering earlier
    ones) and advances the counter [i] by one; every [describe] block
    leaves [groups] as it found it. *)
Theorem exec_balanced (b : Suite.Script) (st : Suite.State) :
  Suite.groups (Suite.exec fileName b st) = Suite.groups st /\
  Suite.i (Suite.exec fileName b st) = (Suite.i st + Suite.count_tests b)%nat /\
  exists new_tests new_only,
    Suite.tests (Suite.exec fileName b st) = Suite.tests st ++ new_tests /\
    Suite.only (Suite.exec fileName b st) = Suite.only st ++ new_only /\
    (length new_tests + length new_only)%nat = Suite.count_tests b.
Proof.
  revert st. induction b as [|k d r o rest IH|k d cb IHcb rest IHrest]; intros st.
  - cbn. split; [done|]. split; [lia|]. exists [], []. by rewrite !app_nil_r.
  - cbn [Suite.exec Suite.count_tests].
    destruct (IH (Suite.call_test fileName k d r o st))
      as (Hg & Hi & nt & no & Ht & Ho & Hlen).
    rewrite Hg, Hi, Ht, Ho. cbn [Suite.call_test Suite.groups Suite.i Suite.tests Suite.only].
    split; [done|]. split; [lia|].
    destruct (match k with Suite.Only => true | _ => Suite.onlyInScope st end).
    + eexists nt, (_ :: no). rewrite <- app_assoc. cbn. split; [done|]. split; [done|]. lia.
    + eexists (_ :: nt), no. rewrite <- app_assoc. cbn. split; [done|]. split; [done|]. lia.
  - cbn [Suite.exec Suite.count_tests].
    destruct (IHcb (Suite.enter k d st)) as (Hg1 & Hi1 & nt1 & no1 & Ht1 & Ho1 & Hlen1).
    set (st2 := Suite.leave k (Suite.exec fileName cb (Suite.enter k d st))).
    destruct (IHrest st2) as (Hg & Hi & nt & no & Ht & Ho & Hlen).
    rewrite Hg, Hi, Ht, Ho. unfold st2. cbn [Suite.leave Suite.groups Suite.i Suite.tests Suite.only].
    rewrite Hg1, Hi1, Ht1, Ho1. cbn [Suite.enter Suite.groups Suite.i Suite.tests Suite.only].
    split; [by rewrite removelast_last|]. split; [lia|].
    exists (nt1 ++ nt), (no1 ++ no). rewrite !app_assoc, !length_app.
    split; [done|]. split; [done|]. lia.
Qed.

(** X13. [describe.only] and [describe.skip] clear their flag when the
    block ends instead of restoring it: after a builder (or any part of
    one) has run, [onlyInScope] is false as soon as it contained a
    [describe.only] block anywhere, and unchanged otherwise; likewise
    [skipInScope] and [describe.skip].  So a plain [test] placed after a
    nested [describe.only] is no longer in only-scope, even inside an
    enclosing [describe.only]. *)
Theorem scope_flags_cleared (b : Suite.Script) (st : Suite.State) :
  Suite.onlyInScope (Suite.exec fileName b st)
  = (if Suite.has_describe Suite.Only b then false else Suite.onlyInScope st) /\
  Suite.skipInScope (Suite.exec fileName b st)
  = (if Suite.has_describe Suite.Skip b then false else Suite.skipInScope st).
Proof.
  revert st. induction b as [|k d r o rest IH|k d cb IHcb rest IHrest]; intros st.
  - done.
  - cbn [Suite.exec Suite.has_describe].
    destruct (IH (Suite.call_test fileName k d r o st)) as [-> ->]. done.
  - cbn [Suite.exec Suite.has_describe].
    destruct (IHrest (Suite.leave k (Suite.exec fileName cb (Suite.enter k d st))))
      as [-> ->].
    cbn [Suite.leave Suite.onlyInScope Suite.skipInScope].
    destruct (IHcb (Suite.enter k d st)) as [-> ->].
    cbn [Suite.enter Suite.onlyInScope Suite.skipInScope].
    destruct k, (Suite.has_describe Suite.Only cb), (Suite.has_describe Suite.Only rest),
      (Suite.has_describe Suite.Skip cb), (Suite.has_describe Suite.Skip rest); done.
Qed.

End SuiteRuns.

Section SuiteCases.

Variable fileName : string.

Lemma exec_extends (b : Suite.Script) (st : Suite.State) :
  Suite.groups (Suite.exec fileName b st) = Suite.groups st /\
  exists new_tests new_only,
    Suite.tests (Suite.exec fileName b st) = Suite.tests st ++ new_tests /\
    Suite.only (Suite.exec fileName b st) = Suite.only st ++ new_only.
Proof.
  revert st. induction b as [|k d r o rest IH|k d cb IHcb rest IHrest]; intros st.
  - split; [done|]. exists [], []. by rewrite !app_nil_r.
  - cbn [Suite.exec].
    destruct (IH (Suite.call_test fileName k d r o st)) as (-> & nt & no & -> & ->).
    split; [done|]. cbn [Suite.call_test Suite.tests Suite.only].
    destruct (match k with Suite.Only => true | _ => Suite.onlyInScope st end);
      rewrite <- app_assoc; eauto.
  - cbn [Suite.exec].
    destruct (IHrest (Suite.leave k (Suite.exec fileName cb (Suite.enter k d st))))
      as (-> & nt & no & -> & ->).
    cbn [Suite.leave Suite.groups Suite.tests Suite.only].
    destruct (IHcb (Suite.enter k d st)) as (-> & nt1 & no1 & -> & ->).
    cbn [Suite.enter Suite.groups Suite.tests Suite.only].
    split; [by rewrite removelast_last|]. rewrite <- !app_assoc. eauto.
Qed.

Lemma new_case_registered (k : Suite.Kind) (d : string) (r : Suite.JsVal)
    (o : gmap string Suite.JsVal) (st : Suite.State) :
  Suite.registered fileName (Suite.i st)
    {| Suite.call_path := Suite.groups st; Suite.call_kind := k;
       Suite.call_description := d; Suite.call_run := r;
       Suite.call_options := o |}
    (Suite.new_case fileName k d r o st).
Proof.
  unfold Suite.registered, Suite.new_case, Suite.make_case. cbn.
  split; [apply map_union_subseteq_l|].
  repeat split; intros Hnone; try intros ->;
    rewrite lookup_union_r by done;
    repeat (rewrite lookup_insert_ne by done); by rewrite lookup_insert_eq.
Qed.

End SuiteCases.

Section SuiteResults.

Variable fileName : string.

Lemma call_test_case (k : Suite.Kind) (d : string) (r : Suite.JsVal)
    (o : gmap string Suite.JsVal) (st : Suite.State) :
  Suite.call_test fileName k d r o st =
  let c := Suite.new_case fileName k d r o st in
  let into_only :=
    match k with Suite.Only => true | _ => Suite.onlyInScope st end in
  {| Suite.tests := if into_only then Suite.tests st else Suite.tests st ++ [c];
     Suite.only := if into_only then Suite.only st ++ [c] else Suite.only st;
     Suite.onlyInScope := Suite.onlyInScope st;
     Suite.skipInScope := Suite.skipInScope st;
     Suite.groups := Suite.groups st;
     Suite.i := S (Suite.i st) |}.
Proof. by destruct k. Qed.

Lemma names_fresh_snoc (l : list (gmap string Suite.JsVal))
    (c : gmap string Suite.JsVal) (m : nat) :
  NoDup (map (fun c => c !! "name") l) ->
  Forall (fun c => exists n, (n < m)%nat /\ Suite.indexed c n) l ->
  Suite.indexed c m ->
  NoDup (map (fun c => c !! "name") (l ++ [c])).
Proof.
  intros Hnd Hall Hc. rewrite map_app. apply NoDup_app. split; [done|].
  split; [|apply NoDup_singleton].
  intros x Hx Hin. apply list_elem_of_singleton in Hin as ->.
  apply list_elem_of_fmap in Hx as (c' & Heq & Hc').
  rewrite Forall_forall in Hall. destruct (Hall c' Hc') as (n & Hn & [g Hg]).
  assert (Suite.indexed c n) as Hcn by (exists g; by rewrite Heq).
  pose proof (indexed_inj c n m Hcn Hc). lia.
Qed.

Lemma exec_names_fresh (b : Suite.Script) (st : Suite.State) :
  Suite.no_name_option b -> Suite.names_fresh st ->
  Suite.names_fresh (Suite.exec fileName b st).
Proof.
  revert st. induction b as [|k d r o rest IH|k d cb IHcb rest IHrest];
    intros st Hno Hinv.
  - done.
  - destruct Hno as [Ho Hrest]. cbn [Suite.exec]. apply IH; [done|].
    rewrite call_test_case. cbv zeta.
    destruct Hinv as (Ht & Hon & Hall).
    assert (Hc : Suite.indexed (Suite.new_case fileName k d r o st) (Suite.i st)).
    { destruct (new_case_registered fileName k d r o st) as (_ & Hname & _).
      eexists. by apply Hname. }
    assert (Hall' : Forall (fun c => exists n, (n < S (Suite.i st))%nat /\ Suite.indexed c n)
                      (Suite.tests st ++ Suite.only st)).
    { eapply Forall_impl; [exact Hall|]. intros c (n & Hn & Hi). exists n. split; [lia|done]. }
    apply Forall_app in Hall as [Hallt Hallo].
    apply Forall_app in Hall' as [Hallt' Hallo'].
    unfold Suite.names_fresh. cbn [Suite.tests Suite.only Suite.i].
    destruct (match k with Suite.Only => true | _ => Suite.onlyInScope st end).
    + split; [done|]. split; [by apply (names_fresh_snoc _ _ (Suite.i st))|].
      apply Forall_app. split; [done|]. apply Forall_app. split; [done|].
      apply Forall_singleton. exists (Suite.i st). split; [lia|done].
    + split; [by apply (names_fresh_snoc _ _ (Suite.i st))|]. split; [done|].
      apply Forall_app. split; [|done]. apply Forall_app. split; [done|].
      apply Forall_singleton. exists (Suite.i st). split; [lia|done].
  - destruct Hno as [Hcb Hrest]. cbn [Suite.exec]. apply IHrest; [done|].
    specialize (IHcb (Suite.enter k d st) Hcb Hinv). exact IHcb.
Qed.

(** X14. When no option object carries a [name] property, the cases that
    [loadSuite] returns have pairwise distinct names. *)
Theorem loadSuite_names_distinct (suiteName : string) (builder : Suite.Script) :
  Suite.no_name_option builder ->
  NoDup (map (fun c => c !! "name") (Suite.loadSuite fileName suiteName builder)).
Proof.
  intros Hno.
  assert (Hstart : Suite.names_fresh (Suite.start suiteName)).
  { split; [constructor|]. split; constructor. }
  destruct (exec_names_fresh builder _ Hno Hstart) as (Ht & Ho & _).
  unfold Suite.loadSuite. cbv zeta.
  by destruct (0 <? length (Suite.only _))%nat.
Qed.

End SuiteResults.

Section SuiteOrder.

Variable fileName : string.

Lemma exec_without_only (b : Suite.Script) (st : Suite.State) :
  Suite.no_only b -> Suite.onlyInScope st = false ->
  exists new_tests,
    Suite.tests (Suite.exec fileName b st) = Suite.tests st ++ new_tests /\
    Suite.only (Suite.exec fileName b st) = Suite.only st /\
    Suite.onlyInScope (Suite.exec fileName b st) = false /\
    Suite.groups (Suite.exec fileName b st) = Suite.groups st /\
    Suite.i (Suite.exec fileName b st) = (Suite.i st + Suite.count_tests b)%nat /\
    length new_tests = Suite.count_tests b /\
    forall n call,
      Suite.test_calls (Suite.groups st) b !! n = Some call ->
      exists c, new_tests !! n = Some c /\
        Suite.registered fileName (Suite.i st + n) call c.
Proof.
  revert st. induction b as [|k d r o rest IH|k d cb IHcb rest IHrest];
    intros st Hno Hflag.
  - exists []. rewrite app_nil_r. cbn.
    split; [done|]. split; [done|]. split; [done|]. split; [done|].
    split; [lia|]. split; [done|].
    intros n call Hn. by rewrite lookup_nil in Hn.
  - destruct Hno as [Hk Hrest]. cbn [Suite.exec Suite.count_tests Suite.test_calls].
    set (st1 := Suite.call_test fileName k d r o st).
    assert (Hst1 : st1 =
      {| Suite.tests := Suite.tests st ++ [Suite.new_case fileName k d r o st];
         Suite.only := Suite.only st;
         Suite.onlyInScope := false; Suite.skipInScope := Suite.skipInScope st;
         Suite.groups := Suite.groups st; Suite.i := S (Suite.i st) |}).
    { unfold st1. rewrite call_test_case. cbv zeta. rewrite Hflag. by destruct k. }
    destruct (IH st1 Hrest) as (nt & Ht & Ho & Hf & Hg & Hi & Hlen & Hcalls).
    { by rewrite Hst1. }
    rewrite Ht, Ho, Hf, Hg, Hi. rewrite Hst1 in Hcalls |- *.
    cbn [Suite.tests Suite.only Suite.groups Suite.i] in *.
    exists (Suite.new_case fileName k d r o st :: nt).
    rewrite <- app_assoc. cbn [app length].
    split; [done|]. split; [done|]. split; [done|]. split; [done|].
    split; [lia|]. split; [lia|].
    intros [|n] call Hn; cbn in Hn |- *.
    + injection Hn as <-. eexists. split; [done|]. rewrite Nat.add_0_r.
      apply new_case_registered.
    + destruct (Hcalls n call Hn) as (c & Hc & Hreg). exists c. split; [done|].
      by rewrite <- Nat.add_succ_comm.
  - destruct Hno as (Hk & Hcb & Hrest).
    cbn [Suite.exec Suite.count_tests Suite.test_calls].
    destruct (IHcb (Suite.enter k d st) Hcb) as (nt1 & Ht1 & Ho1 & Hf1 & Hg1 & Hi1 & Hlen1 & Hcalls1).
    { by destruct k. }
    set (st2 := Suite.leave k (Suite.exec fileName cb (Suite.enter k d st))).
    assert (Hg2 : Suite.groups st2 = Suite.groups st).
    { unfold st2. cbn [Suite.leave Suite.groups]. rewrite Hg1. cbn.
      by rewrite removelast_last. }
    destruct (IHrest st2 Hrest) as (nt & Ht & Ho & Hf & Hg & Hi & Hlen & Hcalls).
    { unfold st2. cbn. by destruct k. }
    rewrite Ht, Ho, Hf, Hg, Hi, Hg2. rewrite Hg2 in Hcalls.
    unfold st2 in Hcalls |- *. cbn [Suite.leave Suite.tests Suite.only Suite.i] in *.
    rewrite Ht1, Ho1, Hi1 in *. cbn [Suite.enter Suite.tests Suite.only Suite.groups Suite.i] in *.
    exists (nt1 ++ nt). rewrite <- app_assoc, length_app.
    split; [done|]. split; [done|]. split; [done|]. split; [done|].
    split; [lia|]. split; [lia|].
    intros n call Hn.
    destruct (decide (n < length (Suite.test_calls (Suite.groups st ++ [d]) cb))%nat)
      as [Hlt|Hge].
    + rewrite lookup_app_l in Hn by done.
      destruct (Hcalls1 n call Hn) as (c & Hc & Hreg). exists c. split; [|done].
      rewrite lookup_app_l; [done|]. by apply lookup_lt_Some in Hc.
    + rewrite lookup_app_r in Hn by lia. rewrite length_test_calls in Hn, Hge.
      destruct (Hcalls _ call Hn) as (c & Hc & Hreg). exists c. split.
      * rewrite lookup_app_r by lia. by rewrite Hlen1.
      * replace (Suite.i st + n)%nat
          with (Suite.i st + Suite.count_tests cb + (n - Suite.count_tests cb))%nat
          by lia. done.
Qed.

(** X15. A builder without any [test.only] or [describe.only]: [loadSuite]
    returns one case per test call, in call order.  The n-th case (from 0)
    carries every property of the call's option object and, where the
    options do not override them, the description and run function of the
    call, the file name as [path], [skipFn] as [skip] for a [test.skip],
    and the name made of the suite name and the descriptions of the
    enclosing [describe] blocks joined by [>], an underscore and [n]. *)
Theorem loadSuite_without_only (suiteName : string) (builder : Suite.Script) :
  Suite.no_only builder ->
  length (Suite.loadSuite fileName suiteName builder)
  = Suite.count_tests builder /\
  forall n call,
    Suite.test_calls [suiteName] builder !! n = Some call ->
    exists c, Suite.loadSuite fileName suiteName builder !! n = Some c /\
      Suite.registered fileName n call c.
Proof.
  intros Hno.
  destruct (exec_without_only builder (Suite.start suiteName) Hno eq_refl)
    as (nt & Ht & Ho & _ & _ & _ & Hlen & Hcalls).
  unfold Suite.loadSuite. cbv zeta. rewrite Ho, Ht. cbn. split; [done|].
  intros n call Hn. exact (Hcalls n call Hn).
Qed.

Lemma only_calls_app (n : nat) (l1 l2 : list Suite.TestCall) :
  Suite.only_calls n (l1 ++ l2)
  = Suite.only_calls n l1 ++ Suite.only_calls (n + length l1) l2.
Proof.
  revert n. induction l1 as [|call l1 IH]; intros n.
  - cbn. by rewrite Nat.add_0_r.
  - cbn [app Suite.only_calls length]. rewrite IH, <- app_assoc.
    by rewrite Nat.add_succ_comm.
Qed.

Lemma elem_of_only_calls (n k : nat) (calls : list Suite.TestCall)
    (call : Suite.TestCall) :
  calls !! k = Some call -> Suite.call_kind call = Suite.Only ->
  ((n + k)%nat, call) ∈ Suite.only_calls n calls.
Proof.
  revert n k. induction calls as [|c calls IH]; intros n k Hk Hkind.
  - by rewrite lookup_nil in Hk.
  - cbn [Suite.only_calls]. destruct k as [|k].
    + injection Hk as ->. rewrite Hkind, Nat.add_0_r. by left.
    + apply elem_of_app. right. rewrite <- Nat.add_succ_comm. by apply IH.
Qed.

(** The cases of the [test.only] calls, in call order, form a sublist of
    what the script appends to [only]. *)
Lemma exec_only_sublist (b : Suite.Script) (st : Suite.State) :
  exists new_only cs,
    Suite.only (Suite.exec fileName b st) = Suite.only st ++ new_only /\
    Suite.groups (Suite.exec fileName b st) = Suite.groups st /\
    Suite.i (Suite.exec fileName b st) = (Suite.i st + Suite.count_tests b)%nat /\
    Forall2 (fun p c => Suite.registered fileName (fst p) (snd p) c)
      (Suite.only_calls (Suite.i st) (Suite.test_calls (Suite.groups st) b)) cs /\
    cs `sublist_of` new_only.
Proof.
  revert st. induction b as [|k d r o rest IH|k d cb IHcb rest IHrest]; intros st.
  - exists [], []. rewrite app_nil_r. cbn.
    split; [done|]. split; [done|]. split; [lia|]. split; constructor.
  - cbn [Suite.exec Suite.test_calls Suite.count_tests Suite.only_calls Suite.call_kind].
    destruct (IH (Suite.call_test fileName k d r o st))
      as (no & cs & Ho & Hg & Hi & Hall & Hsub).
    rewrite Ho, Hg, Hi. rewrite call_test_case in Hall |- *. cbv zeta in *.
    cbn [Suite.only Suite.groups Suite.i] in *.
    pose proof (new_case_registered fileName k d r o st) as Hreg.
    destruct k; cbn [app].
    + destruct (Suite.onlyInScope st).
      * exists (Suite.new_case fileName Suite.Plain d r o st :: no), cs.
        rewrite <- app_assoc. split; [done|]. split; [done|]. split; [lia|].
        split; [done|]. by apply sublist_cons.
      * exists no, cs. split; [done|]. split; [done|]. split; [lia|]. done.
    + exists (Suite.new_case fileName Suite.Only d r o st :: no),
        (Suite.new_case fileName Suite.Only d r o st :: cs).
      rewrite <- app_assoc. split; [done|]. split; [done|]. split; [lia|].
      split; [by constructor | by apply sublist_skip].
    + destruct (Suite.onlyInScope st).
      * exists (Suite.new_case fileName Suite.Skip d r o st :: no), cs.
        rewrite <- app_assoc. split; [done|]. split; [done|]. split; [lia|].
        split; [done|]. by apply sublist_cons.
      * exists no, cs. split; [done|]. split; [done|]. split; [lia|]. done.
  - cbn [Suite.exec Suite.test_calls Suite.count_tests].
    destruct (IHcb (Suite.enter k d st)) as (no1 & cs1 & Ho1 & Hg1 & Hi1 & Hall1 & Hsub1).
    set (st2 := Suite.leave k (Suite.exec fileName cb (Suite.enter k d st))).
    assert (Hg2 : Suite.groups st2 = Suite.groups st).
    { unfold st2. cbn [Suite.leave Suite.groups]. rewrite Hg1. cbn.
      by rewrite removelast_last. }
    assert (Hi2 : Suite.i st2 = (Suite.i st + Suite.count_tests cb)%nat).
    { unfold st2. cbn [Suite.leave Suite.i]. by rewrite Hi1. }
    assert (Ho2 : Suite.only st2 = Suite.only st ++ no1).
    { unfold st2. cbn [Suite.leave Suite.only]. by rewrite Ho1. }
    destruct (IHrest st2) as (no & cs & Ho & Hg & Hi & Hall & Hsub).
    rewrite Ho, Hg, Hi, Hg2, Hi2, Ho2. rewrite Hg2, Hi2 in Hall.
    cbn [Suite.enter Suite.groups Suite.i] in Hall1.
    exists (no1 ++ no), (cs1 ++ cs). rewrite <- app_assoc.
    split; [done|]. split; [done|]. split; [lia|]. split.
    + rewrite only_calls_app, length_test_calls. by apply Forall2_app.
    + by apply sublist_app.
Qed.

(** X16. Cases registered with [test.only] are never dropped: what
    [loadSuite] returns contains, as a sublist and in call order, one case
    for every [test.only] call of the builder; the case belonging to the
    [test.only] call that is the n-th test call overall (from 0) carries
    the call's options and, unless they override them, its description,
    run function, path and the generated name ending in n. *)
Theorem loadSuite_keeps_only (suiteName : string) (builder : Suite.Script) :
  (exists cs,
     Forall2 (fun p c => Suite.registered fileName (fst p) (snd p) c)
       (Suite.only_calls 0 (Suite.test_calls [suiteName] builder)) cs /\
     cs `sublist_of` Suite.loadSuite fileName suiteName builder) /\
  (forall n call,
     Suite.test_calls [suiteName] builder !! n = Some call ->
     Suite.call_kind call = Suite.Only ->
     exists c, c ∈ Suite.loadSuite fileName suiteName builder /\
       Suite.registered fileName n call c).
Proof.
  destruct (exec_only_sublist builder (Suite.start suiteName))
    as (no & cs & Ho & _ & _ & Hall & Hsub).
  cbn [Suite.start Suite.only Suite.groups Suite.i app] in Ho, Hall.
  assert (Hres : cs `sublist_of` Suite.loadSuite fileName suiteName builder).
  { unfold Suite.loadSuite. cbv zeta. rewrite Ho.
    destruct no as [|c no]; [|done].
    apply sublist_nil_r in Hsub as ->. apply sublist_nil_l. }
  split; [by exists cs|].
  intros n call Hn Hk.
  pose proof (elem_of_only_calls 0 n _ call Hn Hk) as Hin.
  apply list_elem_of_lookup in Hin as [j Hj].
  destruct (Forall2_lookup_l _ _ _ _ _ Hall Hj) as (c & Hc & Hreg).
  exists c. split; [|exact Hreg].
  eapply elem_of_sublist; [|exact Hres]. by eapply list_elem_of_lookup_2.
Qed.

End SuiteOrder.

Lemma loadSuite_names_distinct_witness :
  NoDup (map (fun c => c !! "name")
           (Suite.loadSuite "a.js" "a" Suite.sample_suite)).
Proof.
  apply (loadSuite_names_distinct "a.js" "a" Suite.sample_suite).
  repeat split.
Defined.

Lemma loadSuite_without_only_witness :
  length (Suite.loadSuite "a.js" "a" Suite.sample_suite) = 3%nat.
Proof.
  refine (proj1 (loadSuite_without_only "a.js" "a" Suite.sample_suite _)).
  repeat split; discriminate.
Defined.

Lemma loadSuite_keeps_only_witness :
  exists c,
    c ∈ Suite.loadSuite "a.js" "a" Suite.sample_only /\
    Suite.registered "a.js" 3
      {| Suite.call_path := ["a"]; Suite.call_kind := Suite.Only;
         Suite.call_description := "fourth"; Suite.call_run := Suite.VOpaque 4;
         Suite.call_options := ∅ |} c.
Proof.
  apply (proj2 (loadSuite_keeps_only "a.js" "a" Suite.sample_only)).
  - reflexivity.
  - reflexivity.
Defined.

(** ** Runs of the node launcher on sample builders *)

Example sample_suite_names :
  map (fun c => (c !! "name", c !! "skip"))
    (Suite.loadSuite "a.js" "a" Suite.sample_suite)
  = [(Some (Suite.VString "a_0"), Some Suite.VUndefined);
     (Some (Suite.VString "a>group_1"), Some Suite.VSkipFn);
     (Some (Suite.VString "a_2"), Some Suite.VUndefined)].
Proof. vm_compute. reflexivity. Qed.

(** The plain test "third" follows the nested [describe.only] block and is
    no longer in only-scope. *)
Example sample_only_names :
  map (fun c => c !! "description")
    (Suite.loadSuite "a.js" "a" Suite.sample_only)
  = [Some (Suite.VString "second"); Some (Suite.VString "fourth")].
Proof. vm_compute. reflexivity. Qed.

(** An own [skip] property of the options wins over [test.skip]. *)
Example skip_overridden_by_options :
  map (fun c => c !! "skip")
    (Suite.loadSuite "a.js" "a"
       (Suite.CallTest Suite.Skip "t" (Suite.VOpaque 1)
          {["skip" := Suite.VOpaque 7]} Suite.Done))
  = [Some (Suite.VOpaque 7)].
Proof. vm_compute. reflexivity. Qed.

(** * render.js *)

(** ** escape_html *)

Lemma append_cons (c : ascii) (a b : string) :
  String c a +:+ b = String c (a +:+ b).
Proof. reflexivity. Qed.

Lemma append_assoc (a b c : string) : (a +:+ b) +:+ c = a +:+ (b +:+ c).
Proof.
  induction a as [|d a IH]; [done|]. by rewrite !append_cons, IH.
Qed.

Lemma replace_all_app (c : ascii) (by_ a b : string) :
  Render.replace_all c by_ (a +:+ b)
  = Render.replace_all c by_ a +:+ Render.replace_all c by_ b.
Proof.
  induction a as [|d a IH]; [done|].
  rewrite append_cons. cbn [Render.replace_all]. rewrite IH.
  destruct (Ascii.eqb d c); [by rewrite append_assoc | by rewrite append_cons].
Qed.

(** The five passes amount to one pass that rewrites each character on its
    own: no pass touches what an earlier pass has written. *)
Lemma escape_html_each (str : string) :
  Render.escape_html str = Render.escape_each str.
Proof.
  unfold Render.escape_html. induction str as [|c str IH]; [done|].
  cbn [Render.escape_each]. rewrite <- IH. unfold Render.escape_char.
  cbn [Render.replace_all].
  destruct (Ascii.eqb c Render.amp) eqn:H1.
  { rewrite !replace_all_app. done. }
  cbn [Render.replace_all]. destruct (Ascii.eqb c Render.lt) eqn:H2.
  { rewrite !replace_all_app. done. }
  cbn [Render.replace_all]. destruct (Ascii.eqb c Render.gt) eqn:H3.
  { rewrite !replace_all_app. done. }
  cbn [Render.replace_all]. destruct (Ascii.eqb c Render.quot) eqn:H4.
  { rewrite !replace_all_app. done. }
  cbn [Render.replace_all]. by destruct (Ascii.eqb c Render.apos) eqn:H5.
Qed.

(** X17. The text that [escape_html] returns contains no [<], no [>], no
    double quote and no apostrophe, whatever the input. *)
Theorem escape_html_no_markup (str : string) :
  occurs Render.lt (Render.escape_html str) = false /\
  occurs Render.gt (Render.escape_html str) = false /\
  occurs Render.quot (Render.escape_html str) = false /\
  occurs Render.apos (Render.escape_html str) = false.
Proof.
  rewrite escape_html_each.
  assert (Hchar : forall c,
    occurs Render.lt (Render.escape_char c) = false /\
    occurs Render.gt (Render.escape_char c) = false /\
    occurs Render.quot (Render.escape_char c) = false /\
    occurs Render.apos (Render.escape_char c) = false).
  { intros c. unfold Render.escape_char.
    destruct (Ascii.eqb c Render.amp) eqn:H1; [done|].
    destruct (Ascii.eqb c Render.lt) eqn:H2; [done|].
    destruct (Ascii.eqb c Render.gt) eqn:H3; [done|].
    destruct (Ascii.eqb c Render.quot) eqn:H4; [done|].
    destruct (Ascii.eqb c Render.apos) eqn:H5; [done|].
    cbn [occurs]. rewrite !orb_false_r.
    rewrite (Ascii.eqb_sym Render.lt), (Ascii.eqb_sym Render.gt),
      (Ascii.eqb_sym Render.quot), (Ascii.eqb_sym Render.apos). done. }
  induction str as [|c str (IH1 & IH2 & IH3 & IH4)]; [done|].
  cbn [Render.escape_each]. rewrite !occurs_app.
  destruct (Hchar c) as (-> & -> & -> & ->). done.
Qed.

Lemma escape_char_split (c1 c2 : ascii) (r1 r2 : string) :
  Render.escape_char c1 +:+ r1 = Render.escape_char c2 +:+ r2 ->
  c1 = c2 /\ r1 = r2.
Proof.
  unfold Render.escape_char.
  destruct (Ascii.eqb_spec c1 Render.amp) as [->|A1];
  [|destruct (Ascii.eqb_spec c1 Render.lt) as [->|L1];
  [|destruct (Ascii.eqb_spec c1 Render.gt) as [->|G1];
  [|destruct (Ascii.eqb_spec c1 Render.quot) as [->|Q1];
  [|destruct (Ascii.eqb_spec c1 Render.apos) as [->|P1]]]]];
  (destruct (Ascii.eqb_spec c2 Render.amp) as [->|A2];
  [|destruct (Ascii.eqb_spec c2 Render.lt) as [->|L2];
  [|destruct (Ascii.eqb_spec c2 Render.gt) as [->|G2];
  [|destruct (Ascii.eqb_spec c2 Render.quot) as [->|Q2];
  [|destruct (Ascii.eqb_spec c2 Render.apos) as [->|P2]]]]]);
  cbv [String.append]; fold String.append; intros Heq;
  try (injection Heq as <-; done);
  try (injection Heq as ->; done);
  try discriminate Heq;
  try (by injection Heq as -> ->).
Qed.

(** X18. [escape_html] loses nothing: two different texts never have the
    same escaped form. *)
Theorem escape_html_injective (a b : string) :
  Render.escape_html a = Render.escape_html b -> a = b.
Proof.
  rewrite !escape_html_each. revert b.
  assert (Hne : forall c r, Render.escape_char c +:+ r <> EmptyString).
  { intros c r. unfold Render.escape_char.
    by repeat (destruct (Ascii.eqb c _)). }
  induction a as [|c a IH]; intros [|d b]; cbn [Render.escape_each]; intros Heq.
  - done.
  - symmetry in Heq. by destruct (Hne _ _ Heq).
  - by destruct (Hne _ _ Heq).
  - apply escape_char_split in Heq as [-> Heq]. f_equal. by apply IH.
Qed.

(** ** The ordering used by craftResults *)

Lemma string_compare_refl (s : string) : String.compare s s = Eq.
Proof.
  induction s as [|c s IH]; [done|]. cbn.
  unfold Ascii.compare. by rewrite N.compare_refl.
Qed.

Lemma ltb_irrefl (s : string) : String.ltb s s = false.
Proof. unfold String.ltb. by rewrite string_compare_refl. Qed.

Lemma ltb_asym (a b : string) :
  String.ltb a b = true -> String.ltb b a = false.
Proof.
  unfold String.ltb. rewrite (String.compare_antisym a b).
  by destruct (String.compare b a).
Qed.

Lemma ltb_leb (a b : string) : String.ltb a b = negb (String.leb b a).
Proof.
  unfold String.ltb, String.leb. rewrite (String.compare_antisym b a).
  by destruct (String.compare a b).
Qed.

Lemma ltb_trans (a b c : string) :
  String.ltb a b = true -> String.ltb b c = true -> String.ltb a c = true.
Proof.
  intros Hab Hbc. rewrite ltb_leb, negb_true_iff.
  destruct (String.leb c a) eqn:Hca; [|done]. exfalso.
  assert (Hcb : String.leb c b = true).
  { apply Is_true_true. change (String.le c b). trans a.
    - by apply Is_true_true.
    - apply Is_true_true. unfold String.leb.
      unfold String.ltb in Hab. by destruct (String.compare a b). }
  rewrite ltb_leb, Hcb in Hbc. discriminate.
Qed.

Lemma ltb_neither (a b : string) :
  String.ltb a b = false -> String.ltb b a = false -> a = b.
Proof.
  unfold String.ltb. rewrite (String.compare_antisym a b).
  destruct (String.compare b a) eqn:Hc; try done.
  intros _ _. symmetry. by apply String.compare_eq_iff.
Qed.

(** The three answers of the comparison function and what each one means. *)
Lemma compare_tests_cases (e : bool) (a b : Render.TestResult) :
  (Render.compare_tests e a b = -1 /\
   (Render.getTestOrder e a < Render.getTestOrder e b \/
    (Render.getTestOrder e a = Render.getTestOrder e b /\
     String.ltb (Render.name a) (Render.name b) = true))) \/
  (Render.compare_tests e a b = 0 /\
   Render.getTestOrder e a = Render.getTestOrder e b /\
   Render.name a = Render.name b) \/
  (Render.compare_tests e a b = 1 /\
   (Render.getTestOrder e b < Render.getTestOrder e a \/
    (Render.getTestOrder e a = Render.getTestOrder e b /\
     String.ltb (Render.name b) (Render.name a) = true))).
Proof.
  unfold Render.compare_tests. cbv zeta. rewrite Z.gtb_ltb.
  destruct (Z.ltb_spec (Render.getTestOrder e a) (Render.getTestOrder e b));
    [left; split; [done | by left]|].
  destruct (Z.ltb_spec (Render.getTestOrder e b) (Render.getTestOrder e a));
    [right; right; split; [done | by left]|].
  assert (Render.getTestOrder e a = Render.getTestOrder e b) by lia.
  destruct (String.ltb (Render.name a) (Render.name b)) eqn:Hab;
    [left; split; [done | by right]|].
  destruct (String.ltb (Render.name b) (Render.name a)) eqn:Hba;
    [right; right; split; [done | by right]|].
  right. left. split; [done|]. split; [done|]. by apply ltb_neither.
Qed.

(** X19. The comparison function that [craftResults] sorts with is a
    consistent ordering: it answers -1, 0 or 1; swapping the arguments
    negates the answer; it answers 0 exactly for results with the same
    severity class and the same name; it is transitive; and a result of a
    lower class ([getTestOrder]) always comes first, the name deciding only
    within a class. *)
Theorem compare_tests_consistent (expectNothing : bool)
    (a b c : Render.TestResult) :
  (Render.compare_tests expectNothing a b = -1 \/
   Render.compare_tests expectNothing a b = 0 \/
   Render.compare_tests expectNothing a b = 1) /\
  Render.compare_tests expectNothing b a
  = - Render.compare_tests expectNothing a b /\
  (Render.compare_tests expectNothing a b = 0 <->
   Render.getTestOrder expectNothing a = Render.getTestOrder expectNothing b /\
   Render.name a = Render.name b) /\
  (Render.compare_tests expectNothing a b <= 0 ->
   Render.compare_tests expectNothing b c <= 0 ->
   Render.compare_tests expectNothing a c <= 0) /\
  (Render.getTestOrder expectNothing a < Render.getTestOrder expectNothing b ->
   Render.compare_tests expectNothing a b = -1).
Proof.
  pose proof (ltb_irrefl (Render.name a)) as Ia.
  pose proof (ltb_irrefl (Render.name b)) as Ib.
  pose proof (ltb_asym (Render.name a) (Render.name b)) as Aab.
  pose proof (ltb_asym (Render.name b) (Render.name a)) as Aba.
  split; [|split; [|split; [|split]]].
  - destruct (compare_tests_cases expectNothing a b)
      as [[-> _]|[[-> _]|[-> _]]]; auto.
  - destruct (compare_tests_cases expectNothing a b)
      as [[-> [?|[? Hs]]]|[[-> [? Hn]]|[-> [?|[? Hs]]]]];
    destruct (compare_tests_cases expectNothing b a)
      as [[-> [?|[? Hs']]]|[[-> [? Hn']]|[-> [?|[? Hs']]]]];
    try lia; try (rewrite ?Hn, ?Hn' in *; congruence);
    try (specialize (Aab Hs); congruence);
    try (specialize (Aba Hs); congruence).
  - split.
    + intros H0. destruct (compare_tests_cases expectNothing a b)
        as [[H _]|[[_ ?]|[H _]]]; [lia | done | lia].
    + intros [Ho Hn]. destruct (compare_tests_cases expectNothing a b)
        as [[_ [?|[_ Hs]]]|[[? _]|[_ [?|[_ Hs]]]]];
        try lia; try done; rewrite Hn in Hs; congruence.
  - intros Hab Hbc.
    destruct (compare_tests_cases expectNothing a c)
      as [[-> _]|[[-> _]|[_ Hac]]]; [lia | lia |]. exfalso.
    destruct (compare_tests_cases expectNothing a b)
      as [[_ Hab']|[[_ Hab']|[H _]]]; [| |lia];
    destruct (compare_tests_cases expectNothing b c)
      as [[_ Hbc']|[[_ Hbc']|[H _]]]; try lia.
    + destruct Hab' as [?|[? S1]], Hbc' as [?|[? S2]], Hac as [?|[? S3]];
        try lia.
      pose proof (ltb_trans _ _ _ S1 S2) as S4.
      pose proof (ltb_asym _ _ S4). congruence.
    + destruct Hbc' as [? Hn]. rewrite <- Hn in Hac.
      destruct Hab' as [?|[? S1]], Hac as [?|[? S3]]; try lia.
      specialize (Aab S1). congruence.
    + destruct Hab' as [? Hn]. rewrite Hn in Hac.
      destruct Hbc' as [?|[? S2]], Hac as [?|[? S3]]; try lia.
      pose proof (ltb_asym _ _ S2). congruence.
    + destruct Hab' as [? Hn], Hbc' as [? Hn']. rewrite Hn, Hn' in Hac.
      destruct Hac as [?|[? S3]]; try lia.
      pose proof (ltb_irrefl (Render.name c)). congruence.
  - intros Hlt. destruct (compare_tests_cases expectNothing a b)
      as [[-> _]|[[_ [? _]]|[_ [?|[? _]]]]]; [done | lia | lia | lia].
Qed.

Lemma escape_html_injective_witness : "a<b" = "a<b".
Proof.
  apply (escape_html_injective "a<b" "a<b"). reflexivity.
Defined.

Example escape_html_sample :
  Render.escape_html "a<b & 'c' > d" = "a&lt;b &amp; &#039;c&#039; &gt; d".
Proof. vm_compute. reflexivity. Qed.

Example expected_failure_sorts_after_error :
  Render.compare_tests false
    {| Render.name := "zeta"; Render.status := "error";
       Render.expectedToFail := false |}
    {| Render.name := "alpha"; Render.status := "error";
       Render.expectedToFail := true |} = -1.
Proof. reflexivity. Qed.
